(** * Checkers rules engine: the [Board] class of [src/game.py]

    A shallow embedding of the rules engine (board state, move generation
    with mandatory multi-jump captures, move application with promotion and
    terminal detection), followed by the properties of its specification.

    Conventions of the embedding.
    - Python integers are [Z]; coordinates are not assumed to be in range,
      the code guards every access with [in_bounds].
    - A piece is the tuple [(color, king_bool)]; a cell holds [None] or a
      piece, so a cell is an [option Piece].
    - [self.board] is a list of rows, each a list of cells.  The constructor
      builds 8 rows of 8 cells and no method changes the shape
      ([wf_board]).  On a list of another shape Python would raise
      [IndexError] where the lookups below read [None] and the updates do
      nothing.
    - Methods that mutate [self] return the new board.
    - A [for] loop that appends to one result list is a [flat_map]; the loop
      of [legal_moves_for] that fills two lists is a [fold_left] over the
      pair.
    - What [random] returns in [bot_move] is an argument ([Dice]); the
      variables of [main] are a record ([Game]) and one pass of its loop is
      a function of the state and the input. *)

From Stdlib Require Import ZArith Lia.
From stdpp Require Import base option list strings sorting.

Local Open Scope Z_scope.

(** * The program *)

(** ** Constants and utilities (lines 33-68) *)

Definition ROWS : Z := 8.
Definition COLS : Z := 8.

(** [PLAYER = 1], [BOT = 2]: the two values a piece's colour takes. *)
Inductive Color : Type := PLAYER | BOT.

#[global] Instance Color_eq_dec : EqDecision Color.
Proof. solve_decision. Defined.

Abbreviation Piece := (Color * bool)%type.
Abbreviation Cell := (option Piece).
Abbreviation Board := (list (list Cell)).

(** A move is the tuple [(to_r, to_c, captured_list)]. *)
Abbreviation Move := (Z * Z * list (Z * Z))%type.

Definition in_bounds (r c : Z) : bool :=
  (0 <=? r) && (r <? ROWS) && (0 <=? c) && (c <? COLS).

Definition opponent (color : Color) : Color :=
  if bool_decide (color = PLAYER) then BOT else PLAYER.

(** ** Board state (lines 72-111) *)

(** [range(n)] for the two loops over rows and columns. *)
Definition range (n : Z) : list Z := seqZ 0 n.

(** [self.board[r][c]] for indices already known to be non-negative. *)
Definition cell_at (b : Board) (r c : Z) : Cell :=
  match b !! Z.to_nat r with
  | Some row => match row !! Z.to_nat c with
                | Some x => x
                | None => None
                end
  | None => None
  end.

(** [self.board[r][c] = val]. *)
Definition store (b : Board) (r c : Z) (val : Cell) : Board :=
  alter (fun row => <[Z.to_nat c := val]> row) (Z.to_nat r) b.

Definition get (b : Board) (r c : Z) : Cell :=
  if negb (in_bounds r c) then None else cell_at b r c.

Definition set (b : Board) (r c : Z) (val : Cell) : Board :=
  if in_bounds r c then store b r c val else b.

Definition remove (b : Board) (r c : Z) : Board :=
  if in_bounds r c then store b r c None else b.

(** [clone] copies every row; boards are values here, so the copy is the
    board itself. *)
Definition clone (b : Board) : Board := b.

Definition empty_board : Board :=
  replicate (Z.to_nat ROWS) (replicate (Z.to_nat COLS) None).

Definition setup (b : Board) : Board :=
  fold_left (fun b r =>
    fold_left (fun b c =>
      if (r + c) mod 2 =? 1 then
        if r <? 3 then store b r c (Some (BOT, false))
        else if r >? 4 then store b r c (Some (PLAYER, false))
        else b
      else b) (range COLS) b) (range ROWS) b.

(** [Board()]. *)
Definition new_board : Board := setup empty_board.

Definition pieces (b : Board) (color : Color) : list (Z * Z * bool) :=
  flat_map (fun r =>
    flat_map (fun c =>
      match get b r c with
      | Some p => if bool_decide (p.1 = color) then [(r, c, p.2)] else []
      | None => []
      end) (range COLS)) (range ROWS).

(** The shape the constructor builds. *)
Definition wf_board (b : Board) : Prop :=
  length b = Z.to_nat ROWS /\ Forall (fun row => length row = Z.to_nat COLS) b.

(** ** Move generator (lines 113-194) *)

(** The direction list both [legal_moves_for] and [_recursive_captures]
    build from the piece they read. *)
Definition directions (p : Piece) : list (Z * Z) :=
  let '(color, king) := p in
  (if king || bool_decide (color = PLAYER) then [(-1, -1); (-1, 1)] else []) ++
  (if king || bool_decide (color = BOT) then [(1, -1); (1, 1)] else []).

(** One iteration of the first loop of [legal_moves_for] (lines 127-138),
    on the pair [(moves, captures)]. *)
Definition scan_step (b : Board) (r c : Z) (color : Color)
    (acc : list Move * list Move) (d : Z * Z) : list Move * list Move :=
  let '(moves, captures) := acc in
  let '(dr, dc) := d in
  let nr := r + dr in
  let nc := c + dc in
  if negb (in_bounds nr nc) then acc
  else
    match get b nr nc with
    | None => (moves ++ [(nr, nc, [])], captures)
    | Some q =>
        if bool_decide (q.1 = opponent color) then
          let jr := nr + dr in
          let jc := nc + dc in
          if in_bounds jr jc && bool_decide (get b jr jc = None)
          then (moves, captures ++ [(jr, jc, [(nr, nc)])])
          else acc
        else acc
    end.

Definition scan (b : Board) (r c : Z) (p : Piece) : list Move * list Move :=
  fold_left (scan_step b r c p.1) (directions p) ([], []).

(** One iteration of the first loop of [_recursive_captures]
    (lines 174-179): what it appends to [captures]. *)
Definition jump_at (b : Board) (r c : Z) (color : Color) (d : Z * Z)
    : list Move :=
  let '(dr, dc) := d in
  let nr := r + dr in
  let nc := c + dc in
  let jr := nr + dr in
  let jc := nc + dc in
  if in_bounds nr nc && in_bounds jr jc then
    match get b nr nc with
    | Some q =>
        if bool_decide (q.1 = opponent color) && bool_decide (get b jr jc = None)
        then [(jr, jc, [(nr, nc)])]
        else []
    | None => []
    end
  else [].

Definition jump_candidates (b : Board) (r c : Z) (p : Piece) : list Move :=
  flat_map (jump_at b r c p.1) (directions p).

(** The loop [for (cr, cc) in cells: remove(cr, cc)] (lines 147-148,
    186-187 and 200-201). *)
Definition remove_all (b : Board) (cells : list (Z * Z)) : Board :=
  fold_left (fun b '(cr, cc) => remove b cr cc) cells b.

(** The board on which the search continues after the jump [cap] from
    [(r, c)] (lines 144-148 and 183-187): the piece read at [(r, c)] is
    written as it is on the landing cell, then the source and the captured
    cells are cleared. *)
Definition jump_clone (b : Board) (r c : Z) (cap : Move) : Board :=
  let '(jr, jc, caplist) := cap in
  let clone := clone b in
  let clone := set clone jr jc (get clone r c) in
  let clone := remove clone r c in
  remove_all clone caplist.

(** What one capture contributes to the result (lines 151-155 and
    189-193), given the chains [more] found from its landing cell. *)
Definition extend (cap : Move) (more : list Move) : list Move :=
  let '(jr, jc, caplist) := cap in
  match more with
  | [] => [(jr, jc, caplist)]
  | _ => map (fun extra : Move => (extra.1.1, extra.1.2, caplist ++ extra.2)) more
  end.

(** The second loop (lines 141-155 and 181-193).  The recursive call is
    the parameter [search]; [None] is a search that ran out of fuel. *)
Fixpoint expand_fuel (search : Board -> Z -> Z -> option (list Move))
    (b : Board) (r c : Z) (captures : list Move) : option (list Move) :=
  match captures with
  | [] => Some []
  | cap :: rest =>
      match search (jump_clone b r c cap) cap.1.1 cap.1.2 with
      | None => None
      | Some more =>
          match expand_fuel search b r c rest with
          | None => None
          | Some full => Some (extend cap more ++ full)
          end
      end
  end.

(** [_recursive_captures] with a bound [n] on the depth of the recursion. *)
Fixpoint recursive_captures_fuel (n : nat) (b : Board) (r c : Z)
    : option (list Move) :=
  match n with
  | O => None
  | S n' =>
      match get b r c with
      | None => Some []
      | Some p =>
          expand_fuel (recursive_captures_fuel n') b r c (jump_candidates b r c p)
      end
  end.

(** [legal_moves_for] where the calls of [_recursive_captures] may nest
    [n] deep. *)
Definition legal_moves_fuel (n : nat) (b : Board) (r c : Z)
    : option (list Move) :=
  match get b r c with
  | None => Some []
  | Some p =>
      let '(moves, captures) := scan b r c p in
      match expand_fuel (recursive_captures_fuel n) b r c captures with
      | None => None
      | Some full_captures =>
          match full_captures with
          | [] => Some moves
          | _ => Some full_captures
          end
      end
  end.

(** A depth no search on [b] reaches: every jump removes a piece. *)
Definition search_depth (b : Board) : nat :=
  S (length (pieces b PLAYER) + length (pieces b BOT)).

Definition _recursive_captures (b : Board) (r c : Z) : list Move :=
  default [] (recursive_captures_fuel (search_depth b) b r c).

Definition legal_moves_for (b : Board) (r c : Z) : list Move :=
  default [] (legal_moves_fuel (search_depth b) b r c).

(** ** Move applier, side-wide query and terminal detector (lines 196-227) *)

(** The kinging test of [apply_move] (line 204). *)
Definition promotes (color : Color) (to_r : Z) : bool :=
  (bool_decide (color = PLAYER) && (to_r =? 0))
  || (bool_decide (color = BOT) && (to_r =? ROWS - 1)).

(** [None] is the [TypeError] of [p[0]] when the source cell is empty. *)
Definition apply_move (b : Board) (r c to_r to_c : Z)
    (captured : list (Z * Z)) : option Board :=
  let p := get b r c in
  let b := set b to_r to_c p in
  let b := remove b r c in
  let b := remove_all b captured in
  match p with
  | None => None
  | Some (color, _) =>
      if promotes color to_r
      then Some (set b to_r to_c (Some (color, true)))
      else Some b
  end.

Definition is_capture (m : Move) : bool :=
  match m.2 with [] => false | _ => true end.

Definition any_capture_available (b : Board) (color : Color) : bool :=
  existsb (fun '(r, c, king) => existsb is_capture (legal_moves_for b r c))
          (pieces b color).

(** [any(self.legal_moves_for(r, c) for r, c, k in self.pieces(color))]. *)
Definition any_legal_move (b : Board) (color : Color) : bool :=
  existsb (fun '(r, c, k) =>
             match legal_moves_for b r c with [] => false | _ => true end)
          (pieces b color).

Definition game_over (b : Board) : bool * string :=
  let p_count := length (pieces b PLAYER) in
  let b_count := length (pieces b BOT) in
  if bool_decide (p_count = 0%nat) then (true, "Bot wins")
  else if bool_decide (b_count = 0%nat) then (true, "Player wins")
  else if negb (any_legal_move b PLAYER) then (true, "Bot wins (no moves for player)")
  else if negb (any_legal_move b BOT) then (true, "Player wins (no moves for bot)")
  else (false, EmptyString).

(** The side a result message of [game_over] names as winner. *)
Definition winner_of (msg : string) : option Color :=
  if String.prefix "Bot wins" msg then Some BOT
  else if String.prefix "Player wins" msg then Some PLAYER
  else None.

(** ** Counting pieces *)

(** The cells the loops of [pieces] visit, in their order. *)
Definition all_cells : list (Z * Z) :=
  flat_map (fun r => map (fun c => (r, c)) (range COLS)) (range ROWS).

Definition occupied_by (b : Board) (color : Color) (x : Z * Z) : bool :=
  match get b x.1 x.2 with
  | Some p => bool_decide (p.1 = color)
  | None => false
  end.

Definition count_cells (f : Z * Z -> bool) (l : list (Z * Z)) : nat :=
  length (List.filter f l).

(** The number of pieces of the opponent of the piece on [(r, c)]. *)
Definition opponent_count (b : Board) (r c : Z) : nat :=
  match get b r c with
  | Some p => length (pieces b (opponent p.1))
  | None => 0
  end.

(** ** Jumps and capture chains *)

(** The piece [p] on [(r, c)] can jump in direction [(dr, dc)]: the next
    cell holds an opponent and the cell behind it is on the board and
    empty. *)
Definition is_jump (b : Board) (r c : Z) (p : Piece) (dr dc : Z) : Prop :=
  In (dr, dc) (directions p) /\
  in_bounds (r + dr) (c + dc) = true /\
  in_bounds (r + dr + dr) (c + dc + dc) = true /\
  (exists q, get b (r + dr) (c + dc) = Some q /\ q.1 = opponent p.1) /\
  get b (r + dr + dr) (c + dc + dc) = None.

(** The second loop with a total [search]. *)
Definition expand (search : Board -> Z -> Z -> list Move)
    (b : Board) (r c : Z) (captures : list Move) : list Move :=
  flat_map (fun cap : Move =>
              extend cap (search (jump_clone b r c cap) cap.1.1 cap.1.2))
           captures.

(** Fuel above the number of opponent pieces. *)
Definition enough_fuel (n : nat) (b : Board) (r c : Z) : Prop :=
  match get b r c with
  | Some p => (length (pieces b (opponent p.1)) < n)%nat
  | None => (0 < n)%nat
  end.

(** What one iteration of the first loop of [legal_moves_for] appends to
    [moves]. *)
Definition simple_at (b : Board) (r c : Z) (d : Z * Z) : list Move :=
  let '(dr, dc) := d in
  if in_bounds (r + dr) (c + dc) then
    match get b (r + dr) (c + dc) with
    | None => [(r + dr, c + dc, [])]
    | Some _ => []
    end
  else [].

Definition simple_moves (b : Board) (r c : Z) (p : Piece) : list Move :=
  flat_map (simple_at b r c) (directions p).

(** The jumps open to whatever stands on [(r, c)]. *)
Definition jumps_at (b : Board) (r c : Z) : list Move :=
  match get b r c with
  | Some p => jump_candidates b r c p
  | None => []
  end.

(** The jump from [(r, c)] over the cell [x]. *)
Definition jump_over (r c : Z) (x : Z * Z) : Move :=
  (x.1 + (x.1 - r), x.2 + (x.2 - c), [x]).

(** The board and the cell the search has reached after jumping, from
    [(r, c)], over the cells of [caps] in their order. *)
Fixpoint replay (b : Board) (r c : Z) (caps : list (Z * Z))
    : Board * (Z * Z) :=
  match caps with
  | [] => (b, (r, c))
  | x :: rest =>
      let cap := jump_over r c x in
      replay (jump_clone b r c cap) cap.1.1 cap.1.2 rest
  end.

(** Every jump of the sequence is open when it is made. *)
Fixpoint jump_path (b : Board) (r c : Z) (caps : list (Z * Z)) : Prop :=
  match caps with
  | [] => True
  | x :: rest =>
      let cap := jump_over r c x in
      In cap (jumps_at b r c) /\
      jump_path (jump_clone b r c cap) cap.1.1 cap.1.2 rest
  end.

(** The position after the whole chain [m] from [(r, c)]: the source and
    the captured cells cleared, the piece on the landing cell.  The piece is
    written last because the chain of a king can land on the cell it
    started from. *)
Definition after_chain (b : Board) (r c : Z) (m : Move) : Board :=
  let '(to_r, to_c, captured) := m in
  set (remove_all (remove b r c) captured) to_r to_c (get b r c).

(** The directions of the successive jumps over [caps] from [(r, c)]. *)
Fixpoint path_directions (r c : Z) (caps : list (Z * Z)) : list (Z * Z) :=
  match caps with
  | [] => []
  | x :: rest =>
      (x.1 - r, x.2 - c)
        :: path_directions (x.1 + (x.1 - r)) (x.2 + (x.2 - c)) rest
  end.

(** ** Sequences of calls and reachable boards *)

(** One call of [apply_move]: [(r, c, to_r, to_c, captured)], the tuple
    [bot_move] returns and [main] passes on. *)
Abbreviation Call := (Z * Z * Z * Z * list (Z * Z))%type.

Fixpoint apply_moves (b : Board) (calls : list Call) : option Board :=
  match calls with
  | [] => Some b
  | (r, c, to_r, to_c, captured) :: rest =>
      match apply_move b r c to_r to_c captured with
      | None => None
      | Some b' => apply_moves b' rest
      end
  end.

(** The cell of the piece that stands on [pos], followed through the
    calls: it moves when its cell is the source of a call, and is lost
    ([None]) when another piece is moved onto it. *)
Fixpoint follow (pos : Z * Z) (calls : list Call) : option (Z * Z) :=
  match calls with
  | [] => Some pos
  | (r, c, to_r, to_c, captured) :: rest =>
      if decide (pos = (r, c)) then follow (to_r, to_c) rest
      else if decide (pos = (to_r, to_c)) then None
      else follow pos rest
  end.

(** The boards of a game: the initial layout, then moves taken from
    [legal_moves_for] of their source cell. *)
Inductive reachable : Board -> Prop :=
| reachable_new : reachable new_board
| reachable_move (b b' : Board) r c to_r to_c captured :
    reachable b ->
    In (to_r, to_c, captured) (legal_moves_for b r c) ->
    apply_move b r c to_r to_c captured = Some b' ->
    reachable b'.

(** ** Example boards *)

Definition board_of (l : list (Z * Z * Piece)) : Board :=
  fold_left (fun b '(r, c, p) => set b r c (Some p)) l empty_board.

(** A man of the player with a double jump, and one with none. *)
Definition double_jump_board : Board :=
  board_of [(7, 0, (PLAYER, false)); (6, 1, (BOT, false));
            (4, 3, (BOT, false)); (7, 6, (PLAYER, false))].

(** A man of the player one jump from the back rank, with a second bot
    piece that only a king could take from there. *)
Definition back_rank_board : Board :=
  board_of [(2, 1, (PLAYER, false)); (1, 2, (BOT, false)); (1, 4, (BOT, false))].

(** A king of the player with four bot men around the cell next to it:
    its chains come back to the cell they start from. *)
Definition ring_board : Board :=
  board_of [(2, 3, (PLAYER, true)); (3, 4, (BOT, false)); (5, 4, (BOT, false));
            (5, 2, (BOT, false)); (3, 2, (BOT, false))].

(** Eight men a side, none of which can move. *)
Definition blockade_board : Board :=
  board_of [(4, 1, (BOT, false)); (4, 3, (BOT, false)); (4, 5, (BOT, false));
            (4, 7, (BOT, false)); (5, 0, (BOT, false)); (5, 2, (BOT, false));
            (5, 4, (BOT, false)); (5, 6, (BOT, false));
            (6, 1, (PLAYER, false)); (6, 3, (PLAYER, false));
            (6, 5, (PLAYER, false)); (6, 7, (PLAYER, false));
            (7, 0, (PLAYER, false)); (7, 2, (PLAYER, false));
            (7, 4, (PLAYER, false)); (7, 6, (PLAYER, false))].

(** The board after the opening move of the man on [(5, 0)]. *)
Definition opening_board : Board :=
  default new_board (apply_move new_board 5 0 4 1 []).

Definition king_board : Board :=
  board_of [(1, 2, (PLAYER, true)); (0, 5, (BOT, false))].

(** The king steps onto its back rank and off it again. *)
Definition king_tour : list Call := [(1, 2, 0, 1, []); (0, 1, 1, 0, [])].

(** A single man of the player, on its own back rank, where it cannot
    move. *)
Definition lone_man_board : Board := board_of [(0, 1, (PLAYER, false))].

(** A player man with a free step in front of a bot man on row 7, which
    has none. *)
Definition cornered_bot_board : Board :=
  board_of [(7, 0, (BOT, false)); (5, 2, (PLAYER, false))].

(** * Further definitions *)

(** ** Order of enumeration *)

(** Row-major order of cells: the order of the two nested loops of
    [pieces]. *)
Definition cell_before (x y : Z * Z) : Prop :=
  x.1 < y.1 \/ (x.1 = y.1 /\ x.2 < y.2).

#[global] Instance cell_before_dec x y : Decision (cell_before x y).
Proof. unfold cell_before. apply _. Defined.

(** What the body of the loops of [pieces] appends for the cell [x]. *)
Definition piece_at (b : Board) (color : Color) (x : Z * Z)
    : list (Z * Z * bool) :=
  match get b x.1 x.2 with
  | Some p => if bool_decide (p.1 = color) then [(x.1, x.2, p.2)] else []
  | None => []
  end.

(** ** The starting layout *)

(** The piece [setup] writes on [(r, c)], if any (lines 82-86). *)
Definition initial_piece (r c : Z) : Cell :=
  if (r + c) mod 2 =? 1 then
    if r <? 3 then Some (BOT, false)
    else if r >? 4 then Some (PLAYER, false)
    else None
  else None.

(** The body of the loops of [setup] for the cell [x]. *)
Definition setup_step (b : Board) (x : Z * Z) : Board :=
  if (x.1 + x.2) mod 2 =? 1 then
    if x.1 <? 3 then store b x.1 x.2 (Some (BOT, false))
    else if x.1 >? 4 then store b x.1 x.2 (Some (PLAYER, false))
    else b
  else b.

(** ** Promotion *)

(** Every piece standing on the row where its colour is kinged is a
    king. *)
Definition back_rank_kings (b : Board) : Prop :=
  forall r c color king,
    get b r c = Some (color, king) -> promotes color r = true -> king = true.

(** ** The bot (lines 308-336) *)

(** What the random generator draws during one call of [bot_move]:
    whether [random.random() < 0.2], and the number behind
    [random.choice]. *)
Record Dice : Type := { lucky : bool; pick : nat }.

(** [random.choice(l)]: the element of [l] at an index below its length;
    the number drawn is reduced modulo the length.  On the empty list
    Python raises [IndexError]; here the result is [None]. *)
Definition choice {A} (l : list A) (i : nat) : option A :=
  l !! (i mod length l)%nat.

(** [list.sort] with the larger keys first: [key=lambda x: -k(x)], or
    [key=k, reverse=True].  The sort is stable: elements with equal keys
    keep their order. *)
Fixpoint insert_desc {A} (key : A -> Z) (x : A) (l : list A) : list A :=
  match l with
  | [] => [x]
  | y :: l' => if key x <? key y then y :: insert_desc key x l' else x :: l
  end.

Definition sort_desc {A} (key : A -> Z) (l : list A) : list A :=
  foldr (insert_desc key) [] l.

(** The moves the loops of [bot_move] visit, in their order (lines
    311-317). *)
Definition bot_candidates (b : Board) : list Call :=
  flat_map (fun '(r, c, k) =>
              map (fun '(to_r, to_c, captured) => (r, c, to_r, to_c, captured))
                  (legal_moves_for b r c))
           (pieces b BOT).

Definition call_is_capture (m : Call) : bool :=
  match m.2 with [] => false | _ => true end.

Definition call_to_r (m : Call) : Z := m.1.1.2.

Definition bot_move (b : Board) (d : Dice) : option Call :=
  let capture_moves := List.filter call_is_capture (bot_candidates b) in
  let moves := List.filter (fun m => negb (call_is_capture m)) (bot_candidates b) in
  match capture_moves with
  | _ :: _ =>
      match sort_desc (fun m : Call => Z.of_nat (length m.2)) capture_moves with
      | [] => None  (* [capture_moves[0]] of an empty list: not reached *)
      | first :: rest =>
          let sorted := first :: rest in
          let top :=
            List.filter (fun m : Call => (length m.2 =? length first.2)%nat)
                        sorted in
          choice top (pick d)
      end
  | [] =>
      match moves with
      | [] => None
      | _ :: _ =>
          if lucky d then choice moves (pick d)
          else
            let sorted := sort_desc call_to_r moves in
            let topk := take (Nat.max 1 (length sorted / 3)) sorted in
            choice topk (pick d)
      end
  end.

(** ** Input and the game loop (lines 339-343 and 363-447) *)

Definition WIDTH : Z := 800.
Definition HEIGHT : Z := 800.
Definition SQUARE_SIZE : Z := WIDTH / COLS.

Definition coords_from_mouse (pos : Z * Z) : Z * Z :=
  let '(x, y) := pos in
  let c := x / SQUARE_SIZE in
  let r := y / SQUARE_SIZE in
  (r, c).

(** The centre of the square of a cell, as [draw_board] computes it
    (lines 257-258): [(cx, cy)]. *)
Definition cell_centre (r c : Z) : Z * Z :=
  (c * SQUARE_SIZE + SQUARE_SIZE / 2, r * SQUARE_SIZE + SQUARE_SIZE / 2).

(** The variables of [main]; [turn] is [PLAYER], [BOT] or [None]. *)
Record Game : Type := {
  board : Board;
  selected : option (Z * Z);
  valid_moves : option (list Move);
  turn : option Color;
  ai_thinking : bool;
  message : string
}.

(** The state at the start of [main] (lines 364-370). *)
Definition new_game : Game :=
  {| board := new_board; selected := None; valid_moves := None;
     turn := Some PLAYER; ai_thinking := false; message := EmptyString |}.

(** Selecting the clicked cell (lines 406-411 and 413-415); [keep] tells
    what happens to a selection when the cell holds no player piece: it
    is dropped in the first place and kept in the second. *)
Definition select (g : Game) (r c : Z) (keep : bool) : Game :=
  match get (board g) r c with
  | Some (PLAYER, _) =>
      {| board := board g; selected := Some (r, c);
         valid_moves := Some (legal_moves_for (board g) r c);
         turn := turn g; ai_thinking := ai_thinking g; message := message g |}
  | _ =>
      if keep then g
      else {| board := board g; selected := None; valid_moves := None;
              turn := turn g; ai_thinking := ai_thinking g;
              message := message g |}
  end.

(** The player's move is applied: the selection is dropped and
    [game_over] asked (lines 394-403). *)
Definition after_player_move (g : Game) (b' : Board) : Game :=
  let '(over, msg) := game_over b' in
  if over then
    {| board := b'; selected := None; valid_moves := None; turn := None;
       ai_thinking := ai_thinking g; message := msg |}
  else
    {| board := b'; selected := None; valid_moves := None; turn := Some BOT;
       ai_thinking := true; message := message g |}.

(** The bot's move is applied (lines 437-443). *)
Definition after_bot_move (g : Game) (b' : Board) : Game :=
  let '(over, msg) := game_over b' in
  if over then
    {| board := b'; selected := selected g; valid_moves := valid_moves g;
       turn := None; ai_thinking := false; message := msg |}
  else
    {| board := b'; selected := selected g; valid_moves := valid_moves g;
       turn := Some PLAYER; ai_thinking := false; message := message g |}.

(** A [MOUSEBUTTONDOWN] event with the mouse at [pos] (lines 377-415).
    [None] is the exception of [apply_move]. *)
Definition handle_click (g : Game) (pos : Z * Z) : option Game :=
  if bool_decide (turn g = Some PLAYER) && negb (ai_thinking g) then
    let '(r, c) := coords_from_mouse pos in
    match selected g with
    | Some (sr, sc) =>
        let found :=
          match valid_moves g with
          | Some (mv :: rest) =>
              List.find (fun mv : Move => (mv.1.1 =? r) && (mv.1.2 =? c))
                        (mv :: rest)
          | _ => None
          end in
        match found with
        | Some mv =>
            match apply_move (board g) sr sc r c mv.2 with
            | Some b' => Some (after_player_move g b')
            | None => None
            end
        | None => Some (select g r c false)
        end
    | None => Some (select g r c true)
    end
  else Some g.

(** The bot's part of one turn of the loop (lines 418-443). *)
Definition bot_turn (g : Game) (d : Dice) : option Game :=
  if bool_decide (turn g = Some BOT) && ai_thinking g then
    match bot_move (board g) d with
    | None =>
        let '(over, msg) := game_over (board g) in
        if over then
          Some {| board := board g; selected := selected g;
                  valid_moves := valid_moves g; turn := None;
                  ai_thinking := false; message := msg |}
        else
          Some {| board := board g; selected := selected g;
                  valid_moves := valid_moves g; turn := Some PLAYER;
                  ai_thinking := false; message := message g |}
    | Some (r, c, tr, tc, captured) =>
        match apply_move (board g) r c tr tc captured with
        | Some b' => Some (after_bot_move g b')
        | None => None
        end
    end
  else Some g.

(** What the loop reacts to: a [MOUSEBUTTONDOWN] event with the mouse
    position read for it, or the bot's part of a turn of the loop with
    what the random generator draws in it.  Other events change no
    variable and [QUIT] ends the program; drawing and animation read the
    board and write only to the screen.  In [main] the bot's part follows
    the events of each turn of the loop; here the inputs come in any
    order, which includes that one. *)
Inductive Input : Type :=
| Click (pos : Z * Z)
| Bot (d : Dice).

Definition step (g : Game) (i : Input) : option Game :=
  match i with
  | Click pos => handle_click g pos
  | Bot d => bot_turn g d
  end.

Fixpoint play (g : Game) (inputs : list Input) : option Game :=
  match inputs with
  | [] => Some g
  | i :: rest =>
      match step g i with
      | Some g' => play g' rest
      | None => None
      end
  end.

(** What holds of the variables of [main] between two inputs. *)
Definition game_invariant (g : Game) : Prop :=
  reachable (board g) /\
  (forall sr sc, selected g = Some (sr, sc) ->
     (exists k, get (board g) sr sc = Some (PLAYER, k)) /\
     valid_moves g = Some (legal_moves_for (board g) sr sc)) /\
  ai_thinking g = bool_decide (turn g = Some BOT) /\
  (turn g = Some BOT -> selected g = None) /\
  (turn g <> None -> (game_over (board g)).1 = false) /\
  (turn g = None -> game_over (board g) = (true, message g)).

(** * Lemmas on the program *)

(** ** Reading and writing cells *)

Lemma in_bounds_spec r c :
  in_bounds r c = true <-> 0 <= r < ROWS /\ 0 <= c < COLS.
Proof. unfold in_bounds. rewrite !andb_true_iff. lia. Qed.

Lemma get_in_bounds b r c p : get b r c = Some p -> in_bounds r c = true.
Proof. unfold get. by destruct (in_bounds r c). Qed.

Lemma cell_at_store_ne (b : Board) r c v r' c' :
  0 <= r -> 0 <= c -> 0 <= r' -> 0 <= c' -> (r, c) <> (r', c') ->
  cell_at (store b r c v) r' c' = cell_at b r' c'.
Proof.
  intros Hr Hc Hr' Hc' Hne. unfold cell_at, store.
  destruct (decide (Z.to_nat r = Z.to_nat r')) as [Hrr|Hrr].
  - rewrite <- Hrr, list_lookup_alter_eq.
    destruct (b !! Z.to_nat r) as [row|]; simpl; [|done].
    rewrite list_lookup_insert_ne; [done|].
    intros Hcc. apply Hne. f_equal; lia.
  - by rewrite list_lookup_alter_ne.
Qed.

(** Writing a cell that the list has gives the value back; a cell the list
    lacks reads [None] before and after. *)
Lemma cell_at_store_eq (b : Board) r c v :
  cell_at (store b r c v) r c = v \/
  (cell_at (store b r c v) r c = None /\ cell_at b r c = None).
Proof.
  unfold cell_at, store. rewrite list_lookup_alter_eq.
  destruct (b !! Z.to_nat r) as [row|]; simpl; [|by right].
  destruct (decide (Z.to_nat c < length row)%nat) as [Hlt|Hge].
  - left. by rewrite list_lookup_insert_eq.
  - right. rewrite list_insert_ge by lia.
    by rewrite (lookup_ge_None_2 row) by lia.
Qed.

Lemma get_set_ne (b : Board) r c v r' c' :
  (r, c) <> (r', c') -> get (set b r c v) r' c' = get b r' c'.
Proof.
  intros Hne. unfold get, set.
  destruct (in_bounds r' c') eqn:Hb'; simpl; [|done].
  destruct (in_bounds r c) eqn:Hb; [|done].
  apply in_bounds_spec in Hb, Hb'. apply cell_at_store_ne; try lia. done.
Qed.

Lemma get_set_eq (b : Board) r c v :
  get (set b r c v) r c = v \/
  (get (set b r c v) r c = None /\ get b r c = None).
Proof.
  unfold get, set. destruct (in_bounds r c); simpl; [|by right].
  apply cell_at_store_eq.
Qed.

Lemma get_remove_ne (b : Board) r c r' c' :
  (r, c) <> (r', c') -> get (remove b r c) r' c' = get b r' c'.
Proof. apply (get_set_ne b r c None). Qed.

Lemma get_remove_eq (b : Board) r c : get (remove b r c) r c = None.
Proof. destruct (get_set_eq b r c None) as [H|[H _]]; exact H. Qed.

(** What a cell can hold after a write: the written value at the written
    cell, the old content elsewhere. *)
Lemma get_set_Some (b : Board) r c v r' c' p :
  get (set b r c v) r' c' = Some p ->
  ((r', c') = (r, c) /\ v = Some p) \/ ((r', c') <> (r, c) /\ get b r' c' = Some p).
Proof.
  intros H. destruct (decide ((r, c) = (r', c'))) as [Heq|Hne].
  - inversion Heq; subst r' c'. left. split; [done|].
    destruct (get_set_eq b r c v) as [Hv|[Hv _]]; congruence.
  - right. split; [congruence|]. by rewrite get_set_ne in H.
Qed.

Lemma get_remove_Some (b : Board) r c r' c' p :
  get (remove b r c) r' c' = Some p ->
  (r', c') <> (r, c) /\ get b r' c' = Some p.
Proof.
  intros H. apply (get_set_Some b r c None) in H.
  destruct H as [[_ H]|H]; [done|exact H].
Qed.

(** ** Counting pieces *)

Lemma pieces_length (b : Board) (color : Color) :
  length (pieces b color) = count_cells (occupied_by b color) all_cells.
Proof.
  unfold pieces, all_cells, count_cells.
  induction (range ROWS) as [|r rs IHr]; [done|]. cbn [flat_map].
  rewrite List.filter_app, !length_app, IHr. f_equal. clear IHr.
  induction (range COLS) as [|c cs IHc]; [done|]. cbn [flat_map map List.filter].
  rewrite length_app, IHc. unfold occupied_by at 2. cbn [fst snd].
  destruct (get b r c) as [p|]; [|done].
  by destruct (bool_decide (p.1 = color)).
Qed.

Lemma in_all_cells r c : In (r, c) all_cells <-> in_bounds r c = true.
Proof.
  unfold all_cells. rewrite in_flat_map, in_bounds_spec. split.
  - intros (r' & Hr & Hc). apply in_map_iff in Hc as (c' & Heq & Hc).
    inversion Heq; subst r' c'.
    apply list_elem_of_In in Hr, Hc. unfold range in Hr, Hc.
    rewrite elem_of_seqZ in Hr. rewrite elem_of_seqZ in Hc. lia.
  - intros [Hr Hc]. exists r. split.
    + apply list_elem_of_In, elem_of_seqZ. lia.
    + apply in_map_iff. exists c. split; [done|].
      apply list_elem_of_In, elem_of_seqZ. lia.
Qed.

Lemma all_cells_NoDup : List.NoDup all_cells.
Proof. apply NoDup_ListNoDup, (bool_decide_unpack _). by vm_compute. Qed.

(** Two predicates that differ on one cell of a duplicate-free list. *)
Lemma count_cells_one_less f g (l : list (Z * Z)) x :
  List.NoDup l -> In x l -> f x = false -> g x = true ->
  (forall y, y <> x -> f y = g y) ->
  S (count_cells f l) = count_cells g l.
Proof.
  unfold count_cells. intros Hnd Hin Hf Hg Hext.
  induction l as [|a l IH]; [done|].
  inversion Hnd as [|? ? Hnotin Hnd']; subst.
  destruct (decide (a = x)) as [->|Hne].
  - simpl. rewrite Hf, Hg. simpl. f_equal. f_equal.
    apply List.filter_ext_in. intros y Hy. apply Hext. by intros ->.
  - destruct Hin as [?|Hin]; [done|]. simpl.
    rewrite (Hext a Hne). destruct (g a); simpl; rewrite <- (IH Hnd' Hin); done.
Qed.

(** ** Jumps *)

Lemma opponent_ne (color : Color) : opponent color <> color.
Proof. by destruct color. Qed.

Lemma directions_unit p dr dc :
  In (dr, dc) (directions p) -> (dr = -1 \/ dr = 1) /\ (dc = -1 \/ dc = 1).
Proof.
  destruct p as [color king]. unfold directions. rewrite in_app_iff.
  intros [H|H];
    [destruct (king || bool_decide (color = PLAYER))
    |destruct (king || bool_decide (color = BOT))];
    simpl in H; intuition (try congruence); simplify_eq; lia.
Qed.

Lemma jump_candidates_In (b : Board) r c p cap :
  In cap (jump_candidates b r c p) <->
  exists dr dc, is_jump b r c p dr dc /\
                cap = (r + dr + dr, c + dc + dc, [(r + dr, c + dc)]).
Proof.
  unfold jump_candidates, is_jump. rewrite in_flat_map. split.
  - intros ([dr dc] & Hd & Hin). exists dr, dc. unfold jump_at in Hin.
    destruct (in_bounds (r + dr) (c + dc)) eqn:Hn; [|done].
    destruct (in_bounds (r + dr + dr) (c + dc + dc)) eqn:Hj; [|done].
    simpl in Hin. destruct (get b (r + dr) (c + dc)) as [q|] eqn:Hq; [|done].
    destruct (bool_decide (q.1 = opponent p.1)) eqn:Ho; [|done].
    destruct (bool_decide (get b (r + dr + dr) (c + dc + dc) = None)) eqn:He;
      [|done].
    apply bool_decide_eq_true in Ho, He. destruct Hin as [<-|[]].
    repeat split; eauto.
  - intros (dr & dc & (Hd & Hn & Hj & (q & Hq & Ho) & He) & ->).
    exists (dr, dc). split; [done|]. unfold jump_at. rewrite Hn, Hj, Hq. simpl.
    rewrite (bool_decide_eq_true_2 _ Ho), (bool_decide_eq_true_2 _ He).
    by left.
Qed.

(** Each jump takes exactly one opponent piece off the board the search
    continues on. *)
Lemma jump_clone_pieces (b : Board) r c p dr dc :
  get b r c = Some p -> is_jump b r c p dr dc ->
  S (length (pieces (jump_clone b r c
                       (r + dr + dr, c + dc + dc, [(r + dr, c + dc)]))
                    (opponent p.1)))
  = length (pieces b (opponent p.1)).
Proof.
  intros Hp (Hd & Hn & Hj & (q & Hq & Ho) & He).
  rewrite !pieces_length.
  apply count_cells_one_less with (x := (r + dr, c + dc)).
  - apply all_cells_NoDup.
  - by apply in_all_cells.
  - unfold occupied_by, jump_clone, clone, remove_all. simpl. by rewrite get_remove_eq.
  - unfold occupied_by. simpl. rewrite Hq. by apply bool_decide_eq_true_2.
  - intros [yr yc] Hy. unfold occupied_by, jump_clone, clone, remove_all. simpl.
    rewrite Hp, get_remove_ne by congruence.
    destruct (decide ((r, c) = (yr, yc))) as [Heq|Hsrc].
    { inversion Heq; subst yr yc. rewrite get_remove_eq, Hp.
      symmetry. apply bool_decide_eq_false_2. apply not_eq_sym, opponent_ne. }
    rewrite get_remove_ne by done.
    destruct (decide ((r + dr + dr, c + dc + dc) = (yr, yc))) as [Heq|Hland].
    { inversion Heq; subst yr yc. rewrite He.
      destruct (get_set_eq b (r + dr + dr) (c + dc + dc) (Some p)) as [->|[-> _]];
        [|done].
      apply bool_decide_eq_false_2. apply not_eq_sym, opponent_ne. }
    by rewrite get_set_ne.
Qed.

(** The landing cell of the board the search continues on holds the piece
    that jumped, unchanged, when it holds anything. *)
Lemma jump_clone_landing (b : Board) r c p dr dc q :
  get b r c = Some p -> is_jump b r c p dr dc ->
  get (jump_clone b r c (r + dr + dr, c + dc + dc, [(r + dr, c + dc)]))
      (r + dr + dr) (c + dc + dc) = Some q ->
  q = p.
Proof.
  intros Hp (_ & _ & _ & _ & He) Hq.
  unfold jump_clone, clone, remove_all in Hq. simpl in Hq.
  apply get_remove_Some in Hq as [_ Hq]. apply get_remove_Some in Hq as [_ Hq].
  apply get_set_Some in Hq as [[_ Hq]|[Hne _]]; congruence.
Qed.

(** ** The search never runs out of fuel *)

Lemma expand_fuel_Some search_o search (b : Board) r c captures :
  (forall cap : Move, In cap captures ->
     search_o (jump_clone b r c cap) cap.1.1 cap.1.2
     = Some (search (jump_clone b r c cap) cap.1.1 cap.1.2)) ->
  expand_fuel search_o b r c captures = Some (expand search b r c captures).
Proof.
  induction captures as [|cap rest IH]; intros H; [done|].
  cbn [expand_fuel]. rewrite (H cap) by (by left).
  rewrite IH by (intros; apply H; by right). done.
Qed.

Lemma expand_fuel_mono s1 s2 (b : Board) r c captures l :
  (forall (cap : Move) l', In cap captures ->
     s1 (jump_clone b r c cap) cap.1.1 cap.1.2 = Some l' ->
     s2 (jump_clone b r c cap) cap.1.1 cap.1.2 = Some l') ->
  expand_fuel s1 b r c captures = Some l ->
  expand_fuel s2 b r c captures = Some l.
Proof.
  revert l. induction captures as [|cap rest IH]; intros l H; [done|].
  cbn [expand_fuel].
  destruct (s1 (jump_clone b r c cap) cap.1.1 cap.1.2) as [more|] eqn:H1; [|done].
  rewrite (H cap more); [|by left|done].
  destruct (expand_fuel s1 b r c rest) as [full|] eqn:H2; [|done].
  rewrite (IH full); [done| |done].
  intros cap' l' Hin. apply H. by right.
Qed.

Lemma recursive_captures_fuel_mono n n' (b : Board) r c l :
  (n <= n')%nat ->
  recursive_captures_fuel n b r c = Some l ->
  recursive_captures_fuel n' b r c = Some l.
Proof.
  revert n' b r c l. induction n as [|n IH]; intros n' b r c l Hle; [done|].
  destruct n' as [|n']; [lia|]. cbn [recursive_captures_fuel].
  destruct (get b r c) as [p|]; [|done].
  apply expand_fuel_mono. intros cap l' _. apply IH. lia.
Qed.

Lemma jump_clone_enough_fuel n (b : Board) r c p cap :
  get b r c = Some p -> In cap (jump_candidates b r c p) ->
  (length (pieces b (opponent p.1)) <= n)%nat ->
  enough_fuel n (jump_clone b r c cap) cap.1.1 cap.1.2.
Proof.
  intros Hp Hin Hn. apply jump_candidates_In in Hin as (dr & dc & Hj & ->).
  pose proof (jump_clone_pieces b r c p dr dc Hp Hj) as Hcount.
  unfold enough_fuel. cbn [fst snd].
  destruct (get _ (r + dr + dr) (c + dc + dc)) as [q|] eqn:Hq; [|lia].
  apply (jump_clone_landing b r c p dr dc q Hp Hj) in Hq as ->. lia.
Qed.

Lemma recursive_captures_fuel_total n (b : Board) r c :
  enough_fuel n b r c -> is_Some (recursive_captures_fuel n b r c).
Proof.
  revert b r c. induction n as [|n IH]; intros b r c Hn.
  { unfold enough_fuel in Hn. destruct (get b r c); lia. }
  cbn [recursive_captures_fuel]. unfold enough_fuel in Hn.
  destruct (get b r c) as [p|] eqn:Hp; [|done].
  assert (forall cap, In cap (jump_candidates b r c p) ->
            is_Some (recursive_captures_fuel n (jump_clone b r c cap)
                       cap.1.1 cap.1.2)) as Hall.
  { intros cap Hin. apply IH. eapply jump_clone_enough_fuel; [done..|lia]. }
  induction (jump_candidates b r c p) as [|cap rest IHc]; [done|].
  cbn [expand_fuel]. destruct (Hall cap) as [more ->]; [by left|].
  destruct IHc as [full ->]; [intros; apply Hall; by right|]. done.
Qed.

Lemma search_depth_enough (b : Board) r c : enough_fuel (search_depth b) b r c.
Proof.
  unfold enough_fuel, search_depth.
  destruct (get b r c) as [[[] k]|]; cbn [fst];
    change (opponent PLAYER) with BOT; change (opponent BOT) with PLAYER; lia.
Qed.

Lemma recursive_captures_fuel_enough n (b : Board) r c :
  enough_fuel n b r c ->
  recursive_captures_fuel n b r c = Some (_recursive_captures b r c).
Proof.
  intros Hn.
  destruct (recursive_captures_fuel_total n b r c Hn) as [l Hl].
  destruct (recursive_captures_fuel_total _ b r c (search_depth_enough b r c))
    as [l' Hl'].
  unfold _recursive_captures. rewrite Hl, Hl'. simpl. f_equal.
  apply (recursive_captures_fuel_mono _ (Nat.max n (search_depth b))) in Hl;
    [|lia].
  apply (recursive_captures_fuel_mono _ (Nat.max n (search_depth b))) in Hl';
    [|lia].
  congruence.
Qed.

(** The defining equation of [_recursive_captures], as the source reads. *)
Lemma _recursive_captures_eq (b : Board) r c :
  _recursive_captures b r c =
    match get b r c with
    | None => []
    | Some p => expand _recursive_captures b r c (jump_candidates b r c p)
    end.
Proof.
  unfold _recursive_captures at 1. unfold search_depth.
  cbn [recursive_captures_fuel].
  destruct (get b r c) as [p|] eqn:Hp; [|done].
  rewrite (expand_fuel_Some _ _recursive_captures); [done|].
  intros cap Hin. apply recursive_captures_fuel_enough.
  eapply jump_clone_enough_fuel; [done..|].
  destruct p as [[] k]; cbn [fst];
    change (opponent PLAYER) with BOT; change (opponent BOT) with PLAYER; lia.
Qed.

(** ** The two lists of [legal_moves_for] *)

Lemma scan_step_eq (b : Board) r c color moves captures d :
  scan_step b r c color (moves, captures) d =
    (moves ++ simple_at b r c d, captures ++ jump_at b r c color d).
Proof.
  destruct d as [dr dc]. unfold scan_step, simple_at, jump_at.
  destruct (in_bounds (r + dr) (c + dc)); simpl; [|by rewrite !app_nil_r].
  destruct (get b (r + dr) (c + dc)) as [q|];
    [|by destruct (in_bounds _ _); rewrite app_nil_r].
  destruct (bool_decide (q.1 = opponent color)),
           (in_bounds (r + dr + dr) (c + dc + dc)),
           (bool_decide (get b (r + dr + dr) (c + dc + dc) = None));
    simpl; by rewrite ?app_nil_r.
Qed.

Lemma scan_fold (b : Board) r c color ds moves captures :
  fold_left (scan_step b r c color) ds (moves, captures) =
    (moves ++ flat_map (simple_at b r c) ds,
     captures ++ flat_map (jump_at b r c color) ds).
Proof.
  revert moves captures. induction ds as [|d ds IH]; intros moves captures.
  - simpl. by rewrite !app_nil_r.
  - cbn [fold_left flat_map]. rewrite scan_step_eq, IH.
    by rewrite <- !app_assoc.
Qed.

(** The captures of the first loop of [legal_moves_for] are those of the
    first loop of [_recursive_captures]. *)
Lemma scan_eq (b : Board) r c p :
  scan b r c p = (simple_moves b r c p, jump_candidates b r c p).
Proof. unfold scan. by rewrite scan_fold. Qed.

Lemma legal_moves_fuel_enough n (b : Board) r c :
  match get b r c with
  | Some p => (length (pieces b (opponent p.1)) <= n)%nat
  | None => True
  end ->
  legal_moves_fuel n b r c =
    Some match get b r c with
         | None => []
         | Some p =>
             match expand _recursive_captures b r c (jump_candidates b r c p) with
             | [] => simple_moves b r c p
             | full_captures => full_captures
             end
         end.
Proof.
  unfold legal_moves_fuel. destruct (get b r c) as [p|] eqn:Hp; [|done].
  intros Hn. rewrite scan_eq.
  rewrite (expand_fuel_Some _ _recursive_captures).
  - by destruct (expand _ _ _ _ _).
  - intros cap Hin. apply recursive_captures_fuel_enough.
    by eapply jump_clone_enough_fuel.
Qed.

(** [legal_moves_for] as the source reads. *)
Lemma legal_moves_for_eq (b : Board) r c :
  legal_moves_for b r c =
    match get b r c with
    | None => []
    | Some p =>
        match expand _recursive_captures b r c (jump_candidates b r c p) with
        | [] => simple_moves b r c p
        | full_captures => full_captures
        end
    end.
Proof.
  unfold legal_moves_for. rewrite legal_moves_fuel_enough; [done|].
  unfold search_depth. destruct (get b r c) as [[[] k]|]; [| |done]; cbn [fst];
    change (opponent PLAYER) with BOT; change (opponent BOT) with PLAYER; lia.
Qed.

(** The captures found by [legal_moves_for] are the chains of
    [_recursive_captures]; without any, the simple moves are returned. *)
Lemma legal_moves_for_captures (b : Board) r c :
  legal_moves_for b r c =
    match _recursive_captures b r c with
    | [] => match get b r c with
            | None => []
            | Some p => simple_moves b r c p
            end
    | full_captures => full_captures
    end.
Proof.
  rewrite legal_moves_for_eq, _recursive_captures_eq.
  destruct (get b r c) as [p|]; [|done]. by destruct (expand _ _ _ _ _).
Qed.

(** ** Capture chains *)

Lemma jump_over_dir r c dr dc :
  jump_over r c (r + dr, c + dc) = (r + dr + dr, c + dc + dc, [(r + dr, c + dc)]).
Proof. unfold jump_over. cbn [fst snd]. repeat f_equal; lia. Qed.

Lemma jumps_at_In (b : Board) r c cap :
  In cap (jumps_at b r c) <->
  exists p x, get b r c = Some p /\ is_jump b r c p (x.1 - r) (x.2 - c) /\
              cap = jump_over r c x.
Proof.
  unfold jumps_at. split.
  - destruct (get b r c) as [p|]; [|done]. intros Hin.
    apply jump_candidates_In in Hin as (dr & dc & Hj & ->).
    exists p, (r + dr, c + dc). cbn [fst snd].
    replace (r + dr - r) with dr by lia. replace (c + dc - c) with dc by lia.
    by rewrite jump_over_dir.
  - intros (p & [xr xc] & -> & Hj & ->). cbn [fst snd] in Hj.
    apply jump_candidates_In. exists (xr - r), (xc - c). split; [done|].
    unfold jump_over. cbn [fst snd]. repeat f_equal; lia.
Qed.

Lemma jumps_at_over (b : Board) r c cap :
  In cap (jumps_at b r c) -> exists x, cap = jump_over r c x.
Proof. intros H. apply jumps_at_In in H as (p & x & _ & _ & ->). by exists x. Qed.

Lemma extend_nonempty cap more : extend cap more <> [].
Proof. destruct cap as [[jr jc] caplist], more; done. Qed.

Lemma _recursive_captures_unfold (b : Board) r c :
  _recursive_captures b r c = expand _recursive_captures b r c (jumps_at b r c).
Proof.
  rewrite _recursive_captures_eq at 1. unfold jumps_at.
  by destruct (get b r c).
Qed.

(** The search finds nothing exactly when no jump is open. *)
Lemma _recursive_captures_nil (b : Board) r c :
  _recursive_captures b r c = [] <-> jumps_at b r c = [].
Proof.
  rewrite _recursive_captures_unfold. unfold expand.
  destruct (jumps_at b r c) as [|cap rest]; [done|]. split; [|done].
  cbn [flat_map]. intros H. apply app_eq_nil in H as [H _].
  by apply extend_nonempty in H.
Qed.

(** A chain of the result is one open jump followed either by nothing,
    when the search from the landing cell is empty, or by a chain of that
    search. *)
Lemma _recursive_captures_In (b : Board) r c tr tc caps :
  In (tr, tc, caps) (_recursive_captures b r c) <->
  exists x rest,
    caps = x :: rest /\ In (jump_over r c x) (jumps_at b r c) /\
    let cap := jump_over r c x in
    let more := _recursive_captures (jump_clone b r c cap) cap.1.1 cap.1.2 in
    (more = [] /\ rest = [] /\ (tr, tc) = (cap.1.1, cap.1.2)) \/
    In (tr, tc, rest) more.
Proof.
  rewrite _recursive_captures_unfold at 1. unfold expand.
  rewrite in_flat_map. split.
  - intros (cap & Hcap & Hin).
    destruct (jumps_at_over _ _ _ _ Hcap) as [x ->].
    exists x. unfold jump_over in Hin at 1. cbn [extend] in Hin.
    destruct (_recursive_captures _ _ _) as [|e more] eqn:Hmore.
    + destruct Hin as [Heq|[]]. inversion Heq; subst.
      exists []. split; [done|]. split; [done|]. by left.
    + apply in_map_iff in Hin as (extra & Heq & Hin). inversion Heq; subst.
      exists extra.2. split; [done|]. split; [done|]. right.
      by destruct extra as [[? ?] ?].
  - intros (x & rest & -> & Hcap & H). exists (jump_over r c x).
    split; [done|]. cbn zeta in H. unfold jump_over at 1. cbn [extend].
    destruct H as [(-> & -> & Heq)|Hin].
    + unfold jump_over in Heq. cbn [fst snd] in Heq. inversion Heq; subst.
      by left.
    + destruct (_recursive_captures _ _ _) as [|e more] eqn:Hmore; [done|].
      apply in_map_iff. by exists (tr, tc, rest).
Qed.

(** The chains of [_recursive_captures]: the non-empty sequences of open
    jumps that end where no jump is open. *)
Lemma _recursive_captures_chain (b : Board) r c tr tc caps :
  In (tr, tc, caps) (_recursive_captures b r c) <->
  caps <> [] /\ jump_path b r c caps /\
  (replay b r c caps).2 = (tr, tc) /\
  jumps_at (replay b r c caps).1 tr tc = [].
Proof.
  revert b r c. induction caps as [|x rest IH]; intros b r c.
  { rewrite _recursive_captures_In. split; [|tauto].
    by intros (x & rest & ? & _). }
  rewrite _recursive_captures_In. cbn [replay jump_path]. split.
  - intros (x' & rest' & Heq & Hcap & H). inversion Heq; subst x' rest'.
    split; [done|]. split; [split; [done|]|].
    + destruct H as [(_ & -> & _)|Hin]; [done|].
      by apply IH in Hin as (_ & ? & _).
    + destruct H as [(Hnil & -> & Heq')|Hin].
      * inversion Heq'; subst. cbn [replay fst snd]. split; [done|].
        by apply _recursive_captures_nil.
      * by apply IH in Hin as (_ & _ & ? & ?).
  - intros (_ & [Hcap Hpath] & Hpos & Hend). exists x, rest.
    split; [done|]. split; [done|]. cbn zeta.
    destruct rest as [|y rest'].
    + left. cbn [replay fst snd] in Hpos, Hend. inversion Hpos; subst.
      split; [|done]. by apply _recursive_captures_nil.
    + right. apply IH. done.
Qed.

(** ** Laws of [set] and [remove] *)

Lemma store_store_eq (b : Board) r c v v' :
  store (store b r c v) r c v' = store b r c v'.
Proof.
  unfold store. rewrite list_alter_alter_eq. apply list_alter_ext; [|done].
  intros row _. simpl. apply list_insert_insert_eq.
Qed.

Lemma store_store_ne (b : Board) r c v r' c' v' :
  0 <= r -> 0 <= c -> 0 <= r' -> 0 <= c' -> (r, c) <> (r', c') ->
  store (store b r c v) r' c' v' = store (store b r' c' v') r c v.
Proof.
  intros Hr Hc Hr' Hc' Hne. unfold store.
  destruct (decide (Z.to_nat r' = Z.to_nat r)) as [Heq|Hrr].
  - rewrite Heq, !list_alter_alter_eq. apply list_alter_ext; [|done].
    intros row _. simpl. apply list_insert_insert_ne.
    intros Hcc. apply Hne. f_equal; lia.
  - by apply list_alter_alter_ne.
Qed.

Lemma store_cell_at (b : Board) r c : store b r c (cell_at b r c) = b.
Proof.
  unfold store, cell_at.
  transitivity (alter (fun row : list Cell => row) (Z.to_nat r) b);
    [|by apply list_alter_id].
  apply list_alter_ext; [|done]. intros row ->.
  destruct (row !! Z.to_nat c) as [x|] eqn:Hx.
  - by apply list_insert_id.
  - apply list_insert_ge. by apply lookup_ge_None.
Qed.

Lemma set_set_eq (b : Board) r c v v' :
  set (set b r c v) r c v' = set b r c v'.
Proof. unfold set. destruct (in_bounds r c); [apply store_store_eq|done]. Qed.

Lemma set_set_ne (b : Board) r c v r' c' v' :
  (r, c) <> (r', c') ->
  set (set b r c v) r' c' v' = set (set b r' c' v') r c v.
Proof.
  intros Hne. unfold set.
  destruct (in_bounds r c) eqn:Hb, (in_bounds r' c') eqn:Hb'; try done.
  apply in_bounds_spec in Hb, Hb'. apply store_store_ne; try lia. done.
Qed.

Lemma set_get (b : Board) r c : set b r c (get b r c) = b.
Proof.
  unfold set, get. destruct (in_bounds r c); [|done]. apply store_cell_at.
Qed.

Lemma remove_set_eq (b : Board) r c v : remove (set b r c v) r c = remove b r c.
Proof. apply (set_set_eq b r c v None). Qed.

Lemma remove_set_ne (b : Board) r c r' c' v :
  (r, c) <> (r', c') ->
  remove (set b r' c' v) r c = set (remove b r c) r' c' v.
Proof. intros Hne. symmetry. by apply (set_set_ne b r c None r' c' v). Qed.

Lemma remove_remove (b : Board) r c r' c' :
  remove (remove b r c) r' c' = remove (remove b r' c') r c.
Proof.
  destruct (decide ((r, c) = (r', c'))) as [Heq|Hne].
  - by inversion Heq.
  - by apply (set_set_ne b r c None r' c' None).
Qed.

Lemma remove_empty (b : Board) r c : get b r c = None -> remove b r c = b.
Proof. intros H. rewrite <- (set_get b r c) at 2. by rewrite H. Qed.

(** ** Boards of the constructor's shape *)

Lemma wf_board_store (b : Board) r c v : wf_board b -> wf_board (store b r c v).
Proof.
  intros [Hlen Hrows]. split.
  - unfold store. by rewrite length_alter.
  - unfold store. apply Forall_alter; [done|].
    intros row _ Hrow. by rewrite length_insert.
Qed.

Lemma wf_board_set (b : Board) r c v : wf_board b -> wf_board (set b r c v).
Proof. unfold set. destruct (in_bounds r c); [apply wf_board_store|done]. Qed.

Lemma wf_board_remove (b : Board) r c : wf_board b -> wf_board (remove b r c).
Proof. apply wf_board_set. Qed.

Lemma wf_board_new : wf_board new_board.
Proof. split; [done|]. vm_compute. repeat constructor. Qed.

(** On such a board a write inside the bounds is read back. *)
Lemma get_set_wf (b : Board) r c v :
  wf_board b -> in_bounds r c = true -> get (set b r c v) r c = v.
Proof.
  intros [Hlen Hrows] Hb. unfold get, set. rewrite Hb. simpl.
  apply in_bounds_spec in Hb. unfold ROWS, COLS in *.
  unfold cell_at, store. rewrite list_lookup_alter_eq.
  destruct (lookup_lt_is_Some_2 b (Z.to_nat r)) as [row Hrow]; [lia|].
  rewrite Hrow. simpl.
  assert (length row = Z.to_nat 8) as Hl.
  { eapply Forall_lookup_1 in Hrows; [exact Hrows|exact Hrow]. }
  rewrite list_lookup_insert_eq; [done|lia].
Qed.

(** ** The position a chain leads to *)

(** What an open jump over [x] says about the board, in the coordinates
    of [x]. *)
Lemma jump_over_open (b : Board) r c x :
  In (jump_over r c x) (jumps_at b r c) ->
  exists p, get b r c = Some p /\
    In (x.1 - r, x.2 - c) (directions p) /\
    in_bounds x.1 x.2 = true /\
    in_bounds (x.1 + (x.1 - r)) (x.2 + (x.2 - c)) = true /\
    (exists q, get b x.1 x.2 = Some q /\ q.1 = opponent p.1) /\
    get b (x.1 + (x.1 - r)) (x.2 + (x.2 - c)) = None.
Proof.
  intros H. apply jumps_at_In in H as (p & x' & Hp & Hj & Heq).
  inversion Heq; subst x'. exists p. split; [done|].
  destruct Hj as (Hd & Hn & Hl & Hq & He).
  replace (r + (x.1 - r)) with x.1 in * by lia.
  replace (c + (x.2 - c)) with x.2 in * by lia. done.
Qed.

Lemma jump_clone_over (b : Board) r c x :
  jump_clone b r c (jump_over r c x) =
    remove (remove (set b (x.1 + (x.1 - r)) (x.2 + (x.2 - c)) (get b r c)) r c)
           x.1 x.2.
Proof. by destruct x. Qed.

Lemma jump_over_distinct (b : Board) r c x :
  In (jump_over r c x) (jumps_at b r c) ->
  (r, c) <> (x.1 + (x.1 - r), x.2 + (x.2 - c)) /\
  (x.1, x.2) <> (x.1 + (x.1 - r), x.2 + (x.2 - c)).
Proof.
  intros H. apply jump_over_open in H as (p & _ & Hd & _).
  apply directions_unit in Hd. split; intros Heq; inversion Heq; lia.
Qed.

(** On a board of the constructor's shape the replayed chain ends in the
    position [after_chain], with the piece that started on its landing
    cell. *)
Lemma replay_after_chain (b : Board) r c p caps :
  wf_board b -> get b r c = Some p -> jump_path b r c caps ->
  (replay b r c caps).1 =
    after_chain b r c ((replay b r c caps).2.1, (replay b r c caps).2.2, caps)
  /\ get (replay b r c caps).1 (replay b r c caps).2.1 (replay b r c caps).2.2
     = Some p
  /\ wf_board (replay b r c caps).1.
Proof.
  revert b r c. induction caps as [|x rest IH]; intros b r c Hwf Hp Hpath.
  { cbn [replay after_chain remove_all fold_left fst snd].
    split; [|done].
    change (remove b r c) with (set b r c None). by rewrite set_set_eq, set_get. }
  destruct Hpath as [Hopen Hpath]. cbn [replay]. cbn [jump_over fst snd] in *.
  pose proof (jump_over_distinct _ _ _ _ Hopen) as [Hsrc Hcap].
  pose proof (jump_over_open _ _ _ _ Hopen) as (p' & Hp' & _ & _ & Hl & _ & He).
  set (jr := x.1 + (x.1 - r)) in *. set (jc := x.2 + (x.2 - c)) in *.
  set (cl := jump_clone b r c (jump_over r c x)) in *.
  assert (get cl jr jc = Some p) as Hpc.
  { unfold cl. rewrite jump_clone_over, Hp. fold jr jc.
    rewrite !get_remove_ne by done. by apply get_set_wf. }
  assert (wf_board cl) as Hwfc.
  { unfold cl. rewrite jump_clone_over.
    by apply wf_board_remove, wf_board_remove, wf_board_set. }
  destruct (IH cl jr jc Hwfc Hpc Hpath) as (Hboard & Hpiece & Hwf').
  split; [|done]. rewrite Hboard. unfold after_chain. rewrite Hpc, Hp.
  f_equal. destruct x as [xr xc]. cbn [remove_all fold_left]. f_equal.
  unfold cl. rewrite jump_clone_over. fold jr jc. cbn [fst snd].
  rewrite (remove_remove _ xr xc jr jc), (remove_remove _ r c jr jc).
  rewrite remove_set_eq, (remove_empty b jr jc); done.
Qed.

Lemma jump_path_app (b : Board) r c l1 l2 :
  jump_path b r c (l1 ++ l2) ->
  jump_path (replay b r c l1).1 (replay b r c l1).2.1 (replay b r c l1).2.2 l2.
Proof.
  revert b r c. induction l1 as [|x l1 IH]; intros b r c; [done|].
  cbn [app jump_path replay]. intros [_ H]. by apply IH.
Qed.

(** Every jump moves two rows and two columns, so the landing cell has the
    colour of the source. *)
Lemma replay_parity (b : Board) r c caps :
  Z.odd ((replay b r c caps).2.1 + (replay b r c caps).2.2) = Z.odd (r + c).
Proof.
  revert b r c. induction caps as [|x rest IH]; intros b r c; [done|].
  cbn [replay]. rewrite IH. unfold jump_over. cbn [fst snd].
  replace (x.1 + (x.1 - r) + (x.2 + (x.2 - c)))
    with ((r + c) + 2 * (x.1 + x.2 - r - c)) by lia.
  apply Z.odd_add_mul_2.
Qed.

(** ** What [legal_moves_for] returns *)

Lemma simple_moves_In (b : Board) r c p m :
  In m (simple_moves b r c p) ->
  exists dr dc, In (dr, dc) (directions p) /\ m = (r + dr, c + dc, []) /\
                get b (r + dr) (c + dc) = None.
Proof.
  unfold simple_moves. rewrite in_flat_map. intros ([dr dc] & Hd & Hin).
  exists dr, dc. unfold simple_at in Hin.
  destruct (in_bounds (r + dr) (c + dc)); [|done].
  destruct (get b (r + dr) (c + dc)); [done|].
  destruct Hin as [<-|[]]. done.
Qed.

Lemma legal_moves_for_occupied (b : Board) r c m :
  In m (legal_moves_for b r c) -> exists p, get b r c = Some p.
Proof.
  rewrite legal_moves_for_eq. destruct (get b r c) as [p|]; [eauto|done].
Qed.

(** A returned move is a chain of [_recursive_captures] or a simple
    move. *)
Lemma legal_moves_for_In (b : Board) r c m :
  In m (legal_moves_for b r c) ->
  In m (_recursive_captures b r c) \/
  (_recursive_captures b r c = [] /\
   exists p, get b r c = Some p /\ In m (simple_moves b r c p)).
Proof.
  rewrite legal_moves_for_captures.
  destruct (_recursive_captures b r c) as [|e l]; [|by left].
  destruct (get b r c) as [p|]; [|done]. right. eauto.
Qed.

Lemma legal_moves_for_In_capture (b : Board) r c tr tc caps :
  In (tr, tc, caps) (legal_moves_for b r c) -> caps <> [] ->
  In (tr, tc, caps) (_recursive_captures b r c).
Proof.
  intros Hin Hne. apply legal_moves_for_In in Hin as [?|(_ & p & _ & Hs)]; [done|].
  apply simple_moves_In in Hs as (dr & dc & _ & Heq & _). congruence.
Qed.

(** ** Along a path of jumps *)

Lemma jump_clone_over_landing (b : Board) r c x q :
  In (jump_over r c x) (jumps_at b r c) ->
  get (jump_clone b r c (jump_over r c x))
      (x.1 + (x.1 - r)) (x.2 + (x.2 - c)) = Some q ->
  get b r c = Some q.
Proof.
  intros Hopen. rewrite jump_clone_over. intros Hq.
  apply get_remove_Some in Hq as [_ Hq]. apply get_remove_Some in Hq as [_ Hq].
  apply get_set_Some in Hq as [[_ Hq]|[Hne _]]; done.
Qed.

Lemma jump_clone_pieces_over (b : Board) r c p x :
  get b r c = Some p -> In (jump_over r c x) (jumps_at b r c) ->
  S (length (pieces (jump_clone b r c (jump_over r c x)) (opponent p.1)))
  = length (pieces b (opponent p.1)).
Proof.
  intros Hp Hopen. apply jumps_at_In in Hopen as (p' & x' & Hp' & Hj & Heq).
  inversion Heq; subst x'. assert (p' = p) as -> by congruence.
  rewrite <- (jump_clone_pieces b r c p (x.1 - r) (x.2 - c) Hp Hj).
  do 4 f_equal. unfold jump_over. destruct x as [xr xc]. cbn [fst snd].
  repeat f_equal; lia.
Qed.

(** The piece that starts a path makes every jump of it, with the
    directions it had at the start. *)
Lemma jump_path_directions (b : Board) r c p caps :
  get b r c = Some p -> jump_path b r c caps ->
  Forall (fun d => In d (directions p)) (path_directions r c caps).
Proof.
  revert b r c. induction caps as [|x rest IH]; intros b r c Hp Hpath.
  { constructor. }
  destruct Hpath as [Hopen Hpath]. cbn [path_directions]. constructor.
  - apply jump_over_open in Hopen as (p' & Hp' & Hd & _). congruence.
  - destruct rest as [|y rest']; [constructor|].
    cbn [jump_over fst snd] in Hpath.
    eapply IH; [|exact Hpath]. destruct Hpath as [Hnext _].
    apply jump_over_open in Hnext as (q & Hq & _).
    pose proof (jump_clone_over_landing _ _ _ _ _ Hopen Hq). congruence.
Qed.

(** A path is no longer than the number of opponent pieces. *)
Lemma jump_path_length (b : Board) r c p caps :
  get b r c = Some p -> jump_path b r c caps ->
  (length caps <= length (pieces b (opponent p.1)))%nat.
Proof.
  revert b r c. induction caps as [|x rest IH]; intros b r c Hp Hpath.
  { simpl. lia. }
  destruct Hpath as [Hopen Hpath].
  pose proof (jump_clone_pieces_over _ _ _ _ _ Hp Hopen) as Hcount.
  destruct rest as [|y rest']; [simpl; lia|].
  cbn [jump_over fst snd] in Hpath.
  assert (get (jump_clone b r c (jump_over r c x))
              (x.1 + (x.1 - r)) (x.2 + (x.2 - c)) = Some p) as Hq.
  { destruct Hpath as [Hnext _].
    apply jump_over_open in Hnext as (q & Hq & _).
    pose proof (jump_clone_over_landing _ _ _ _ _ Hopen Hq). congruence. }
  specialize (IH _ _ _ Hq Hpath). cbn [length] in *. lia.
Qed.

(** ** The effect of [apply_move] on the cells *)

Lemma remove_all_get_Some (b : Board) cells r c q :
  get (remove_all b cells) r c = Some q -> get b r c = Some q.
Proof.
  revert b. induction cells as [|[cr cc] cells IH]; intros b; [done|].
  cbn [remove_all fold_left]. intros H. apply IH in H.
  by apply get_remove_Some in H as [_ H].
Qed.

(** After a call, the destination holds the moved piece, its king flag
    kept or raised, when it holds anything; every other occupied cell holds
    what it held. *)
Lemma apply_move_get (b b' : Board) r c to_r to_c captured y1 y2 q :
  apply_move b r c to_r to_c captured = Some b' ->
  get b' y1 y2 = Some q ->
  ((y1, y2) = (to_r, to_c) /\
   exists color king, get b r c = Some (color, king) /\ q.1 = color /\
                      (king = true -> q.2 = true)) \/
  ((y1, y2) <> (to_r, to_c) /\ get b y1 y2 = Some q).
Proof.
  unfold apply_move. destruct (get b r c) as [[color king]|] eqn:Hp; [|done].
  assert (forall q', get (remove_all (remove (set b to_r to_c (Some (color, king)))
                                      r c) captured) y1 y2 = Some q' ->
            ((y1, y2) = (to_r, to_c) /\ q' = (color, king)) \/
            ((y1, y2) <> (to_r, to_c) /\ get b y1 y2 = Some q')) as Hmoved.
  { intros q' H. apply remove_all_get_Some in H.
    apply get_remove_Some in H as [_ H].
    apply get_set_Some in H as [[? ?]|?]; [left|right]; naive_solver. }
  destruct (promotes color to_r).
  - intros [= <-] Hq. apply get_set_Some in Hq as [[Heq Hv]|[Hne Hq]].
    + left. split; [done|]. exists color, king. naive_solver.
    + right. split; [done|]. apply Hmoved in Hq as [[? _]|[_ ?]]; done.
  - intros [= <-] Hq. apply Hmoved in Hq as [[Heq ->]|?]; [left|by right].
    split; [done|]. by exists color, king.
Qed.

(** * Properties of the specification *)

(** ** C10: out-of-bounds writes and removals *)

(** C10.  For every board and every coordinate pair outside the board,
    [set] and [remove] return the board unchanged, so every cell reads as
    before, and the cell itself reads [None] like any out-of-bounds [get];
    neither call fails. *)
Theorem set_remove_out_of_bounds (b : Board) (r c : Z) (v : Cell) :
  in_bounds r c = false ->
  set b r c v = b /\ remove b r c = b /\
  (forall r' c', get (set b r c v) r' c' = get b r' c' /\
                 get (remove b r c) r' c' = get b r' c') /\
  get b r c = None.
Proof.
  intros Hb. unfold set, remove, get. rewrite Hb. done.
Qed.

Lemma set_remove_out_of_bounds_witness :
  in_bounds 8 (-1) = false /\
  set new_board 8 (-1) (Some (PLAYER, true)) = new_board /\
  remove new_board 8 (-1) = new_board.
Proof.
  split; [reflexivity|].
  pose proof (set_remove_out_of_bounds new_board 8 (-1) (Some (PLAYER, true))
                eq_refl) as (Hset & Hremove & _).
  split; [exact Hset|exact Hremove].
Defined.

(** ** C1: captures are mandatory for the cell that has one *)

Lemma is_capture_true (m : Move) : is_capture m = true <-> m.2 <> [].
Proof. unfold is_capture. by destruct m.2. Qed.

(** C1.  For every board and occupied cell, with [moves] and [captures]
    the two lists of the first loop of [legal_moves_for]: when [captures]
    is not empty the result is not empty, every returned move captures and
    none is a simple move; when [captures] is empty the result is
    [moves]. *)
Theorem legal_moves_mandatory_capture (b : Board) (r c : Z) (p : Piece) :
  get b r c = Some p ->
  let moves := (scan b r c p).1 in
  let captures := (scan b r c p).2 in
  Forall (fun m => is_capture m = false) moves /\
  (captures <> [] ->
     legal_moves_for b r c <> [] /\
     Forall (fun m => is_capture m = true) (legal_moves_for b r c) /\
     (forall m, In m (legal_moves_for b r c) -> ~ In m moves)) /\
  (captures = [] -> legal_moves_for b r c = moves).
Proof.
  intros Hp. rewrite scan_eq. cbn [fst snd].
  assert (Forall (fun m => is_capture m = false) (simple_moves b r c p)) as Hs.
  { apply Forall_forall. intros m Hm. apply list_elem_of_In in Hm.
    by apply simple_moves_In in Hm as (dr & dc & _ & -> & _). }
  split; [exact Hs|]. split.
  - intros Hcap.
    assert (jumps_at b r c <> []) as Hj by (unfold jumps_at; by rewrite Hp).
    rewrite <- _recursive_captures_nil in Hj.
    assert (legal_moves_for b r c = _recursive_captures b r c) as ->.
    { rewrite legal_moves_for_captures. by destruct (_recursive_captures b r c). }
    assert (Forall (fun m => is_capture m = true) (_recursive_captures b r c))
      as Hall.
    { apply Forall_forall. intros [[tr tc] caps] Hm. apply list_elem_of_In in Hm.
      apply _recursive_captures_chain in Hm as (Hne & _).
      by apply is_capture_true. }
    split; [done|]. split; [done|]. intros m Hm Hsimple.
    rewrite Forall_forall in Hall, Hs.
    apply list_elem_of_In in Hm, Hsimple.
    specialize (Hall m Hm). specialize (Hs m Hsimple). congruence.
  - intros Hcap. rewrite legal_moves_for_eq, Hp, Hcap. done.
Qed.

Lemma legal_moves_mandatory_capture_witness :
  get double_jump_board 7 0 = Some (PLAYER, false) /\
  (scan double_jump_board 7 0 (PLAYER, false)).2 <> [] /\
  Forall (fun m => is_capture m = true) (legal_moves_for double_jump_board 7 0).
Proof.
  split; [reflexivity|]. split; [discriminate|].
  pose proof (legal_moves_mandatory_capture double_jump_board 7 0
                (PLAYER, false) eq_refl) as (_ & Hcap & _).
  apply Hcap. discriminate.
Defined.

(** ** C9: move generation terminates *)

(** C9.  For every board and cell, with [k] the number of opponent
    pieces: each jump of the search continues on a board with one opponent
    piece less; [_recursive_captures] returns with any recursion depth
    above [k]; [legal_moves_for] returns when its calls of
    [_recursive_captures] nest [k] deep or deeper; and no returned chain
    captures more than [k] pieces. *)
Theorem move_generation_terminates (b : Board) (r c : Z) :
  let k := opponent_count b r c in
  (forall p cap, get b r c = Some p -> In cap (jump_candidates b r c p) ->
     S (length (pieces (jump_clone b r c cap) (opponent p.1))) = k) /\
  (forall n, (k < n)%nat ->
     recursive_captures_fuel n b r c = Some (_recursive_captures b r c)) /\
  (forall n, (k <= n)%nat ->
     legal_moves_fuel n b r c = Some (legal_moves_for b r c)) /\
  Forall (fun m : Move => (length m.2 <= k)%nat) (legal_moves_for b r c).
Proof.
  unfold opponent_count. cbn zeta. repeat split.
  - intros p cap Hp Hin. rewrite Hp.
    apply jump_candidates_In in Hin as (dr & dc & Hj & ->).
    by apply jump_clone_pieces.
  - intros n Hn. apply recursive_captures_fuel_enough. unfold enough_fuel.
    destruct (get b r c); lia.
  - intros n Hn. rewrite legal_moves_fuel_enough.
    + by rewrite legal_moves_for_eq.
    + by destruct (get b r c).
  - apply Forall_forall. intros [[tr tc] caps] Hm. apply list_elem_of_In in Hm.
    cbn [snd]. destruct (legal_moves_for_occupied _ _ _ _ Hm) as [p Hp].
    rewrite Hp. apply legal_moves_for_In in Hm as [Hm|(_ & p' & _ & Hm)].
    + apply _recursive_captures_chain in Hm as (_ & Hpath & _).
      by eapply jump_path_length.
    + apply simple_moves_In in Hm as (dr & dc & _ & Heq & _).
      inversion Heq; subst. simpl. lia.
Qed.

Lemma move_generation_terminates_witness :
  legal_moves_fuel 2 double_jump_board 7 0
  = Some (legal_moves_for double_jump_board 7 0).
Proof.
  pose proof (move_generation_terminates double_jump_board 7 0)
    as (_ & _ & Hlegal & _).
  apply Hlegal. vm_compute. lia.
Defined.

(** ** C2: returned chains are maximal *)

Lemma wf_board_of l : wf_board (board_of l).
Proof.
  unfold board_of.
  assert (wf_board empty_board) as Hwf by (split; [done|by repeat constructor]).
  revert Hwf. generalize empty_board.
  induction l as [|[[r c] p] l IH]; intros b Hwf; [done|].
  cbn [fold_left]. by apply IH, wf_board_set.
Qed.

(** C2.  On every board of the constructor's shape, for every capture
    chain [(tr, tc, caps)] returned by [legal_moves_for]: the search ends
    on the position after the whole chain (source and captured cells
    cleared, the piece on the landing cell); the piece there has no jump,
    so the search from it is empty; no sequence of open jumps, and so no
    other returned chain, extends [caps]. *)
Theorem capture_chains_maximal (b : Board) (r c tr tc : Z)
    (caps : list (Z * Z)) :
  wf_board b ->
  In (tr, tc, caps) (legal_moves_for b r c) ->
  caps <> [] ->
  let pos := after_chain b r c (tr, tc, caps) in
  replay b r c caps = (pos, (tr, tc)) /\
  get pos tr tc = get b r c /\
  jumps_at pos tr tc = [] /\
  _recursive_captures pos tr tc = [] /\
  (forall caps', jump_path b r c caps' -> caps `prefix_of` caps' ->
                 caps' = caps) /\
  (forall tr' tc' caps', In (tr', tc', caps') (legal_moves_for b r c) ->
                         caps `prefix_of` caps' -> caps' = caps).
Proof.
  intros Hwf Hm Hne pos.
  destruct (legal_moves_for_occupied _ _ _ _ Hm) as [p Hp].
  apply legal_moves_for_In_capture in Hm; [|done].
  apply _recursive_captures_chain in Hm as (_ & Hpath & Hpos & Hend).
  destruct (replay_after_chain b r c p caps Hwf Hp Hpath)
    as (Hboard & Hpiece & _).
  assert (replay b r c caps = (pos, (tr, tc))) as Hreplay.
  { destruct (replay b r c caps) as [b' [t1 t2]]. cbn [fst snd] in *.
    inversion Hpos; subst. done. }
  rewrite Hreplay in Hpiece, Hend. cbn [fst snd] in Hpiece, Hend.
  assert (forall caps', jump_path b r c caps' -> caps `prefix_of` caps' ->
                        caps' = caps) as Hmax.
  { intros caps' Hpath' [k ->]. apply jump_path_app in Hpath'.
    rewrite Hreplay in Hpath'. cbn [fst snd] in Hpath'.
    destruct k as [|x k]; [by rewrite app_nil_r|].
    destruct Hpath' as [Hopen _]. rewrite Hend in Hopen. done. }
  repeat split; try done.
  - congruence.
  - by apply _recursive_captures_nil.
  - intros tr' tc' caps' Hm' Hpre. apply Hmax; [|done].
    apply legal_moves_for_In_capture in Hm'.
    + by apply _recursive_captures_chain in Hm' as (_ & ? & _).
    + destruct Hpre as [k ->]. by destruct caps.
Qed.

Lemma capture_chains_maximal_witness :
  wf_board double_jump_board /\
  In (3, 4, [(6, 1); (4, 3)]) (legal_moves_for double_jump_board 7 0) /\
  jumps_at (after_chain double_jump_board 7 0 (3, 4, [(6, 1); (4, 3)])) 3 4 = [].
Proof.
  split; [apply wf_board_of|]. split; [left; reflexivity|].
  pose proof (capture_chains_maximal double_jump_board 7 0 3 4 [(6, 1); (4, 3)]
                (wf_board_of _) (or_introl eq_refl))
    as (_ & _ & Hend & _); [discriminate|exact Hend].
Defined.

(** A chain can end on its own source cell.  The position the search
    ends on has the king there; [apply_move], which clears the source after
    writing the destination, leaves the cell empty. *)
Example chain_back_to_source :
  legal_moves_for ring_board 2 3
  = [(2, 3, [(3, 2); (5, 2); (5, 4); (3, 4)]);
     (2, 3, [(3, 4); (5, 4); (5, 2); (3, 2)])] /\
  get (after_chain ring_board 2 3 (2, 3, [(3, 2); (5, 2); (5, 4); (3, 4)])) 2 3
  = Some (PLAYER, true) /\
  (forall b', apply_move ring_board 2 3 2 3 [(3, 2); (5, 2); (5, 4); (3, 4)]
              = Some b' -> get b' 2 3 = None).
Proof.
  split; [reflexivity|]. split; [reflexivity|].
  intros b' Happly. vm_compute in Happly. by inversion Happly.
Qed.

(** ** C3: the king flag is frozen during the chain search *)

Lemma jump_path_prefix (b : Board) r c l1 l2 :
  jump_path b r c (l1 ++ l2) -> jump_path b r c l1.
Proof.
  revert b r c. induction l1 as [|x l1 IH]; intros b r c; [done|].
  cbn [app jump_path]. intros [? ?]. split; [done|]. by apply IH.
Qed.

Lemma directions_man (color : Color) d :
  In d (directions (color, false)) ->
  d.1 = if bool_decide (color = PLAYER) then -1 else 1.
Proof. destruct color; simpl; intuition (subst; done). Qed.

(** C3.  On every board of the constructor's shape, for every move
    [(tr, tc, caps)] returned for the piece [p] on [(r, c)]: every jump of
    the chain goes in a direction of [p] as it stood at the start; after
    each jump the board the search continues on holds [p] itself, king
    flag included, on the landing cell, whatever the row; so a man only
    ever jumps forward, also after landing on its back rank. *)
Theorem chain_search_freezes_king_flag (b : Board) (r c : Z) (p : Piece)
    (tr tc : Z) (caps : list (Z * Z)) :
  wf_board b ->
  get b r c = Some p ->
  In (tr, tc, caps) (legal_moves_for b r c) ->
  Forall (fun d => In d (directions p)) (path_directions r c caps) /\
  (forall l1 l2, caps = l1 ++ l2 ->
     get (replay b r c l1).1 (replay b r c l1).2.1 (replay b r c l1).2.2
     = Some p) /\
  (p.2 = false ->
     Forall (fun d : Z * Z => d.1 = if bool_decide (p.1 = PLAYER) then -1 else 1)
            (path_directions r c caps)).
Proof.
  intros Hwf Hp Hm.
  assert (jump_path b r c caps) as Hpath.
  { apply legal_moves_for_In in Hm as [Hm|(_ & p' & _ & Hm)].
    - by apply _recursive_captures_chain in Hm as (_ & ? & _).
    - apply simple_moves_In in Hm as (dr & dc & _ & Heq & _).
      by inversion Heq. }
  pose proof (jump_path_directions b r c p caps Hp Hpath) as Hdirs.
  repeat split; [done| |].
  - intros l1 l2 ->. apply jump_path_prefix in Hpath.
    by destruct (replay_after_chain b r c p l1 Hwf Hp Hpath) as (_ & ? & _).
  - intros Hman. destruct p as [color king]. cbn [fst snd] in *. subst king.
    eapply Forall_impl; [exact Hdirs|]. intros d. apply directions_man.
Qed.

Lemma chain_search_freezes_king_flag_witness :
  wf_board back_rank_board /\
  get back_rank_board 2 1 = Some (PLAYER, false) /\
  In (0, 3, [(1, 2)]) (legal_moves_for back_rank_board 2 1) /\
  get (replay back_rank_board 2 1 [(1, 2)]).1 0 3 = Some (PLAYER, false).
Proof.
  split; [apply wf_board_of|]. split; [reflexivity|].
  split; [left; reflexivity|].
  pose proof (chain_search_freezes_king_flag back_rank_board 2 1
                (PLAYER, false) 0 3 [(1, 2)] (wf_board_of _) eq_refl
                (or_introl eq_refl)) as (_ & Hpiece & _).
  exact (Hpiece [(1, 2)] [] eq_refl).
Defined.

(** The man that lands on the back rank stops there although a second
    bot piece stands next to it; a king on the same cell takes both. *)
Example back_rank_chain_stops :
  legal_moves_for back_rank_board 2 1 = [(0, 3, [(1, 2)])] /\
  legal_moves_for (set back_rank_board 2 1 (Some (PLAYER, true))) 2 1
  = [(2, 5, [(1, 2); (1, 4)])].
Proof. split; reflexivity. Qed.

(** ** C5: mandatory capture is per cell *)

(** C5.  For every board and occupied cell without a capture, the result
    of [legal_moves_for] is the list of simple moves of that cell, with no
    condition on the other cells; and there is a board on which such a
    piece has simple moves returned while [any_capture_available] is true
    for its side. *)
Theorem mandatory_capture_is_per_cell :
  (forall (b : Board) r c p,
     get b r c = Some p -> (scan b r c p).2 = [] ->
     legal_moves_for b r c = (scan b r c p).1) /\
  (exists (b : Board) r c p,
     get b r c = Some p /\ (scan b r c p).2 = [] /\
     any_capture_available b p.1 = true /\
     legal_moves_for b r c = (scan b r c p).1 /\
     legal_moves_for b r c <> []).
Proof.
  split.
  - intros b r c p Hp. rewrite scan_eq. cbn [fst snd]. intros Hcap.
    by rewrite legal_moves_for_eq, Hp, Hcap.
  - exists double_jump_board, 7, 6, (PLAYER, false). by vm_compute.
Qed.

Lemma mandatory_capture_is_per_cell_witness :
  any_capture_available double_jump_board PLAYER = true /\
  legal_moves_for double_jump_board 7 6
  = (scan double_jump_board 7 6 (PLAYER, false)).1.
Proof.
  split; [reflexivity|].
  exact (proj1 mandatory_capture_is_per_cell double_jump_board 7 6
           (PLAYER, false) eq_refl eq_refl).
Defined.

(** ** C4: pieces stay on the dark cells *)

Lemma odd_mod_2 (n : Z) : n mod 2 = 1 <-> Z.odd n = true.
Proof. rewrite Zmod_odd. by destruct (Z.odd n). Qed.

Lemma new_board_dark r c p : get new_board r c = Some p -> (r + c) mod 2 = 1.
Proof.
  intros Hp. pose proof (get_in_bounds _ _ _ _ Hp) as Hb.
  apply in_all_cells in Hb.
  assert (forallb (fun x : Z * Z =>
                     match get new_board x.1 x.2 with
                     | Some _ => (x.1 + x.2) mod 2 =? 1
                     | None => true
                     end) all_cells = true) as Hall by (by vm_compute).
  rewrite forallb_forall in Hall. specialize (Hall (r, c) Hb).
  cbn [fst snd] in Hall. rewrite Hp in Hall. by apply Z.eqb_eq.
Qed.

(** A legal move ends on a cell of the colour of its source. *)
Lemma legal_moves_for_parity (b : Board) r c tr tc caps :
  In (tr, tc, caps) (legal_moves_for b r c) -> Z.odd (tr + tc) = Z.odd (r + c).
Proof.
  intros Hm. apply legal_moves_for_In in Hm as [Hm|(_ & p & _ & Hm)].
  - apply _recursive_captures_chain in Hm as (_ & _ & Hpos & _).
    rewrite <- (replay_parity b r c caps), Hpos. done.
  - apply simple_moves_In in Hm as (dr & dc & Hd & Heq & _).
    inversion Heq; subst. apply directions_unit in Hd.
    rewrite !Z.odd_add.
    destruct Hd as [[-> | ->] [-> | ->]]; simpl;
      by destruct (Z.odd r), (Z.odd c).
Qed.

(** C4.  On every board reached from the initial layout by calls of
    [apply_move] with moves taken from [legal_moves_for] of their source
    cell, every occupied cell [(r, c)] has [(r + c) % 2 == 1]. *)
Theorem reachable_pieces_on_dark_cells (b : Board) :
  reachable b ->
  forall r c p, get b r c = Some p -> (r + c) mod 2 = 1.
Proof.
  induction 1 as [|b b' r c to_r to_c captured Hreach IH Hm Happly];
    intros y1 y2 q Hq.
  - by eapply new_board_dark.
  - destruct (apply_move_get _ _ _ _ _ _ _ _ _ _ Happly Hq)
      as [[Heq _]|[_ Hold]]; [|by eapply IH].
    inversion Heq; subst y1 y2.
    destruct (legal_moves_for_occupied _ _ _ _ Hm) as [p Hp].
    apply odd_mod_2. rewrite (legal_moves_for_parity _ _ _ _ _ _ Hm).
    apply odd_mod_2. by eapply IH.
Qed.

Lemma reachable_pieces_on_dark_cells_witness :
  reachable opening_board /\
  get opening_board 4 1 = Some (PLAYER, false) /\
  (4 + 1) mod 2 = 1.
Proof.
  assert (reachable opening_board) as Hreach.
  { apply (reachable_move new_board opening_board 5 0 4 1 []).
    - apply reachable_new.
    - left. reflexivity.
    - reflexivity. }
  split; [exact Hreach|]. split; [reflexivity|].
  exact (reachable_pieces_on_dark_cells opening_board Hreach 4 1
           (PLAYER, false) eq_refl).
Defined.

(** ** C6: the king flag never reverts *)

(** What [apply_move] leaves on the destination: the moved piece, its flag
    raised exactly when the kinging test holds. *)
Lemma apply_move_destination (b b' : Board) r c to_r to_c captured color king q :
  apply_move b r c to_r to_c captured = Some b' ->
  get b r c = Some (color, king) ->
  get b' to_r to_c = Some q ->
  q = (color, king || promotes color to_r).
Proof.
  unfold apply_move. intros Happly Hp. rewrite Hp in Happly.
  destruct (promotes color to_r); inversion Happly; subst b'; intros Hq.
  - apply get_set_Some in Hq as [[_ Hq]|[Hne _]]; [|done].
    rewrite orb_true_r. congruence.
  - apply remove_all_get_Some in Hq. apply get_remove_Some in Hq as [_ Hq].
    apply get_set_Some in Hq as [[_ Hq]|[Hne _]]; [|done].
    rewrite orb_false_r. congruence.
Qed.

(** C6.  A call of [apply_move] leaves on the destination the piece it
    read on the source with the same colour and with the king flag kept,
    or raised when the kinging test holds, so a king stays a king; and
    through every sequence of calls that succeeds, a piece that is a king
    is a king on every cell it is moved to, for as long as no other piece
    is moved onto its cell. *)
Theorem king_flag_monotone :
  (forall (b b' : Board) r c to_r to_c captured color king q,
     apply_move b r c to_r to_c captured = Some b' ->
     get b r c = Some (color, king) ->
     get b' to_r to_c = Some q ->
     q = (color, king || promotes color to_r) /\
     (king = true -> q = (color, true))) /\
  (forall (calls : list Call) (b b' : Board) (pos pos' : Z * Z) color q,
     apply_moves b calls = Some b' ->
     get b pos.1 pos.2 = Some (color, true) ->
     follow pos calls = Some pos' ->
     get b' pos'.1 pos'.2 = Some q ->
     q = (color, true)).
Proof.
  split.
  - intros b b' r c to_r to_c captured color king q Happly Hp Hq.
    pose proof (apply_move_destination _ _ _ _ _ _ _ _ _ _ Happly Hp Hq) as ->.
    split; [done|]. by intros ->.
  - intros calls b b' pos pos' color q Hrun Hking.
    assert (forall q', get b pos.1 pos.2 = Some q' -> q' = (color, true))
      as Hinv by (intros q'; congruence).
    clear Hking. revert b pos Hrun Hinv.
    induction calls as [|[[[[r c] to_r] to_c] captured] calls IH];
      intros b pos Hrun Hinv Hfollow Hq.
    { cbn in Hrun, Hfollow. simplify_eq. by apply Hinv. }
    cbn [apply_moves follow] in Hrun, Hfollow.
    destruct (apply_move b r c to_r to_c captured) as [b1|] eqn:Happly; [|done].
    destruct (decide (pos = (r, c))) as [->|Hsrc].
    + eapply (IH b1 (to_r, to_c)); try done. intros q' Hq'. cbn [fst snd] in *.
      destruct (apply_move_get _ _ _ _ _ _ _ _ _ _ Happly Hq')
        as [[_ (color' & king' & Hp & Hcol & Hflag)]|[Hne _]]; [|done].
      apply Hinv in Hp. destruct q' as [qc qk]. cbn [fst snd] in *.
      inversion Hp; subst. by rewrite Hflag.
    + destruct (decide (pos = (to_r, to_c))) as [->|Hdst]; [done|].
      eapply (IH b1 pos); try done. intros q' Hq'.
      destruct (apply_move_get _ _ _ _ _ _ _ _ _ _ Happly Hq')
        as [[Heq _]|[_ Hold]]; [|by apply Hinv].
      destruct pos. cbn [fst snd] in Heq. done.
Qed.

Lemma king_flag_monotone_witness :
  get king_board 1 2 = Some (PLAYER, true) /\
  follow (1, 2) king_tour = Some (1, 0) /\
  (forall b' q, apply_moves king_board king_tour = Some b' ->
                get b' 1 0 = Some q -> q = (PLAYER, true)).
Proof.
  split; [reflexivity|]. split; [reflexivity|]. intros b' q Hrun Hq.
  exact (proj2 king_flag_monotone king_tour king_board b' (1, 2) (1, 0)
           PLAYER q Hrun eq_refl eq_refl Hq).
Defined.

(** ** C7: a side without pieces has lost *)

Lemma length_zero_iff {A} (l : list A) : length l = 0%nat <-> l = [].
Proof. by destruct l. Qed.

(** C7.  For every board: without player pieces and with a bot piece
    [game_over] returns [(True, 'Bot wins')]; without bot pieces and with
    a player piece it returns [(True, 'Player wins')]; both whatever the
    legal moves are, and a verdict for lack of moves is only returned when
    both sides have a piece. *)
Theorem game_over_elimination (b : Board) :
  (pieces b PLAYER = [] -> pieces b BOT <> [] ->
   game_over b = (true, "Bot wins") /\
   winner_of (game_over b).2 = Some BOT) /\
  (pieces b BOT = [] -> pieces b PLAYER <> [] ->
   game_over b = (true, "Player wins") /\
   winner_of (game_over b).2 = Some PLAYER) /\
  ((game_over b).2 = "Bot wins (no moves for player)" \/
   (game_over b).2 = "Player wins (no moves for bot)" ->
   pieces b PLAYER <> [] /\ pieces b BOT <> []).
Proof.
  unfold game_over. split; [|split].
  - intros Hp _. by rewrite Hp.
  - intros Hb Hp. rewrite <- length_zero_iff in Hb, Hp.
    by rewrite (bool_decide_eq_false_2 _ Hp), (bool_decide_eq_true_2 _ Hb).
  - intros Hmsg. split; intros Hnil; rewrite <- length_zero_iff in Hnil.
    + rewrite (bool_decide_eq_true_2 _ Hnil) in Hmsg. by destruct Hmsg.
    + case_bool_decide; [by destruct Hmsg|].
      rewrite (bool_decide_eq_true_2 _ Hnil) in Hmsg. by destruct Hmsg.
Qed.

Lemma game_over_elimination_witness :
  pieces lone_man_board BOT = [] /\
  pieces lone_man_board PLAYER <> [] /\
  any_legal_move lone_man_board PLAYER = false /\
  game_over lone_man_board = (true, "Player wins").
Proof.
  split; [reflexivity|]. split; [discriminate|]. split; [reflexivity|].
  destruct (game_over_elimination lone_man_board) as (_ & Hwin & _).
  apply Hwin; [reflexivity|discriminate].
Defined.

(** ** C8: a side that cannot move has lost *)

Lemma any_legal_move_false (b : Board) (color : Color) :
  any_legal_move b color = false <->
  forall r c k, In (r, c, k) (pieces b color) -> legal_moves_for b r c = [].
Proof.
  unfold any_legal_move. rewrite <- not_true_iff_false, existsb_exists. split.
  - intros Hnone r c k Hin.
    destruct (legal_moves_for b r c) as [|m l] eqn:Hl; [done|].
    exfalso. apply Hnone. exists (r, c, k). by rewrite Hl.
  - intros Hall ([[r c] k] & Hin & Hl). by rewrite (Hall r c k Hin) in Hl.
Qed.

Lemma any_legal_move_true (b : Board) (color : Color) :
  any_legal_move b color = true <->
  exists r c k, In (r, c, k) (pieces b color) /\ legal_moves_for b r c <> [].
Proof.
  unfold any_legal_move. rewrite existsb_exists. split.
  - intros ([[r c] k] & Hin & Hl). exists r, c, k. split; [done|].
    by destruct (legal_moves_for b r c).
  - intros (r & c & k & Hin & Hl). exists (r, c, k). split; [done|].
    by destruct (legal_moves_for b r c).
Qed.

(** The claim fails where both sides have pieces and neither can move:
    every bot piece has an empty [legal_moves_for], yet the winner named
    is the bot, because the player is examined first. *)
Lemma game_over_stalemate_counterexample :
  pieces blockade_board PLAYER <> [] /\
  pieces blockade_board BOT <> [] /\
  (forall r c k, In (r, c, k) (pieces blockade_board BOT) ->
                 legal_moves_for blockade_board r c = []) /\
  game_over blockade_board = (true, "Bot wins (no moves for player)") /\
  winner_of (game_over blockade_board).2 <> Some (opponent BOT).
Proof.
  split; [discriminate|]. split; [discriminate|].
  split; [by apply any_legal_move_false|]. split; [reflexivity|discriminate].
Qed.

(** C8, amended.  For every board on which both sides have a piece: when
    every player piece has an empty [legal_moves_for], [game_over] returns
    [(True, 'Bot wins (no moves for player)')]; when every bot piece has
    an empty [legal_moves_for] and some player piece has a legal move, it
    returns [(True, 'Player wins (no moves for bot)')]. *)
Theorem game_over_no_moves (b : Board) :
  pieces b PLAYER <> [] ->
  pieces b BOT <> [] ->
  ((forall r c k, In (r, c, k) (pieces b PLAYER) -> legal_moves_for b r c = []) ->
   game_over b = (true, "Bot wins (no moves for player)") /\
   winner_of (game_over b).2 = Some BOT) /\
  ((forall r c k, In (r, c, k) (pieces b BOT) -> legal_moves_for b r c = []) ->
   (exists r c k, In (r, c, k) (pieces b PLAYER) /\ legal_moves_for b r c <> []) ->
   game_over b = (true, "Player wins (no moves for bot)") /\
   winner_of (game_over b).2 = Some PLAYER).
Proof.
  intros Hp Hb. unfold game_over.
  rewrite !bool_decide_eq_false_2 by (by rewrite length_zero_iff).
  split.
  - intros Hstuck. apply any_legal_move_false in Hstuck. by rewrite Hstuck.
  - intros Hstuck Hfree. apply any_legal_move_false in Hstuck.
    apply any_legal_move_true in Hfree. by rewrite Hfree, Hstuck.
Qed.

Lemma game_over_no_moves_witness :
  pieces cornered_bot_board PLAYER <> [] /\
  pieces cornered_bot_board BOT <> [] /\
  game_over cornered_bot_board = (true, "Player wins (no moves for bot)").
Proof.
  split; [discriminate|]. split; [discriminate|].
  assert (pieces cornered_bot_board PLAYER <> []) as Hp by discriminate.
  assert (pieces cornered_bot_board BOT <> []) as Hb by discriminate.
  destruct (game_over_no_moves cornered_bot_board Hp Hb) as [_ Hbot].
  apply Hbot.
  - by apply any_legal_move_false.
  - by apply any_legal_move_true.
Defined.

(** * Further properties of the program *)

(** ** Enumeration of the pieces *)

Lemma pieces_all_cells (b : Board) (color : Color) :
  pieces b color = flat_map (piece_at b color) all_cells.
Proof.
  unfold pieces, all_cells.
  induction (range ROWS) as [|r rs IHr]; [done|]. cbn [flat_map].
  rewrite flat_map_app, IHr. f_equal.
Qed.

Lemma piece_at_In (b : Board) (color : Color) x r c k :
  In (r, c, k) (piece_at b color x) <->
  x = (r, c) /\ get b r c = Some (color, k).
Proof.
  unfold piece_at. destruct x as [xr xc]. cbn [fst snd]. split.
  - destruct (get b xr xc) as [[pc pk]|] eqn:Hp; [|done]. cbn [fst snd].
    case_bool_decide; [|done]. intros [Heq|[]]. by simplify_eq.
  - intros [Heq Hp]. simplify_eq. rewrite Hp. cbn [fst snd].
    rewrite bool_decide_eq_true_2 by done. by left.
Qed.

Lemma pieces_In (b : Board) (color : Color) r c k :
  In (r, c, k) (pieces b color) <-> get b r c = Some (color, k).
Proof.
  rewrite pieces_all_cells, in_flat_map. split.
  - intros (x & _ & Hin). by apply piece_at_In in Hin as [_ ?].
  - intros Hp. exists (r, c). split.
    + apply in_all_cells. by eapply get_in_bounds.
    + by apply piece_at_In.
Qed.

(** X1.  [pieces] lists exactly the occupied cells of the colour, each
    with the king flag of its piece, and lists no cell twice. *)
Theorem pieces_spec (b : Board) (color : Color) :
  (forall r c k, In (r, c, k) (pieces b color) <-> get b r c = Some (color, k)) /\
  List.NoDup (map (fun x : Z * Z * bool => x.1) (pieces b color)).
Proof.
  split; [intros r c k; apply pieces_In|].
  - rewrite pieces_all_cells. pose proof all_cells_NoDup as Hnd.
    induction all_cells as [|x l IH]; [constructor|].
    inversion Hnd as [|? ? Hnotin Hnd']; subst. cbn [flat_map].
    rewrite map_app. specialize (IH Hnd').
    unfold piece_at at 1. destruct (get b x.1 x.2) as [p|]; [|done].
    case_bool_decide; [|done]. cbn [map app]. constructor; [|done].
    intros Hin. apply in_map_iff in Hin as ([[r c] k] & Heq & Hin).
    apply in_flat_map in Hin as (y & Hy & Hin).
    apply piece_at_In in Hin as [-> _]. cbn [fst] in Heq.
    destruct x. cbn [fst snd] in Heq. by simplify_eq.
Qed.

Lemma all_cells_sorted : StronglySorted cell_before all_cells.
Proof. apply (bool_decide_unpack _). by vm_compute. Qed.

(** X2.  [pieces] enumerates in row-major order: a piece listed earlier
    stands on a lower row, or on the same row in a lower column. *)
Theorem pieces_row_major (b : Board) (color : Color) :
  StronglySorted
    (fun x y : Z * Z * bool => cell_before (x.1.1, x.1.2) (y.1.1, y.1.2))
    (pieces b color).
Proof.
  rewrite pieces_all_cells. pose proof all_cells_sorted as Hs.
  induction Hs as [|x l Hs IH Hall]; [constructor|]. cbn [flat_map].
  apply StronglySorted_app_2; [| |done].
  2: { unfold piece_at. destruct (get b x.1 x.2) as [p|]; [|constructor].
       case_bool_decide; repeat constructor. }
  intros [[r c] k] [[r' c'] k'] Hin Hin'. cbn [fst snd].
  apply list_elem_of_In in Hin, Hin'.
  apply piece_at_In in Hin as [-> _].
  apply in_flat_map in Hin' as (y & Hy & Hin'). apply piece_at_In in Hin' as [-> _].
  rewrite Forall_forall in Hall. apply Hall. by apply list_elem_of_In.
Qed.

(** ** Reading back what was written *)

(** X3.  On a board of the constructor's shape and for a cell inside the
    bounds: after [set] the cell reads the written value and every other
    cell reads as before; after [remove] the cell reads [None] and every
    other cell reads as before; writing back what a cell holds changes
    nothing. *)
Theorem get_set_round_trip (b : Board) (r c : Z) (v : Cell) :
  wf_board b ->
  in_bounds r c = true ->
  (forall r' c', get (set b r c v) r' c'
                 = if decide ((r, c) = (r', c')) then v else get b r' c') /\
  (forall r' c', get (remove b r c) r' c'
                 = if decide ((r, c) = (r', c')) then None else get b r' c') /\
  set b r c (get b r c) = b.
Proof.
  intros Hwf Hb. repeat split.
  - intros r' c'. case_decide as Heq.
    + inversion Heq; subst. by apply get_set_wf.
    + by apply get_set_ne.
  - intros r' c'. case_decide as Heq.
    + inversion Heq; subst. apply get_remove_eq.
    + by apply get_remove_ne.
  - apply set_get.
Qed.

Lemma get_set_round_trip_witness :
  wf_board new_board /\ in_bounds 3 2 = true /\
  get (set new_board 3 2 (Some (BOT, true))) 3 2 = Some (BOT, true).
Proof.
  split; [apply wf_board_new|]. split; [reflexivity|].
  destruct (get_set_round_trip new_board 3 2 (Some (BOT, true)) wf_board_new
              eq_refl) as (Hset & _).
  exact (Hset 3 2).
Defined.

(** ** The shape of the board *)

Lemma wf_board_remove_all (b : Board) cells :
  wf_board b -> wf_board (remove_all b cells).
Proof.
  revert b. induction cells as [|[cr cc] cells IH]; intros b Hwf; [done|].
  cbn [remove_all fold_left]. by apply IH, wf_board_remove.
Qed.

Lemma wf_board_apply_move (b b' : Board) r c to_r to_c captured :
  wf_board b -> apply_move b r c to_r to_c captured = Some b' -> wf_board b'.
Proof.
  intros Hwf. unfold apply_move.
  destruct (get b r c) as [[color king]|]; [|done].
  assert (wf_board (remove_all (remove (set b to_r to_c (Some (color, king)))
                                       r c) captured)) as Hwf'.
  { by apply wf_board_remove_all, wf_board_remove, wf_board_set. }
  destruct (promotes color to_r); intros [= <-]; [by apply wf_board_set|done].
Qed.

Lemma wf_board_reachable (b : Board) : reachable b -> wf_board b.
Proof.
  induction 1 as [|b b' r c to_r to_c captured _ IH _ Happly].
  - apply wf_board_new.
  - by eapply wf_board_apply_move.
Qed.

(** X4.  The constructor builds 8 rows of 8 cells, and [set], [remove]
    and [apply_move] keep that shape, so every board of a game has it. *)
Theorem board_shape_kept :
  wf_board new_board /\
  (forall (b : Board) r c v,
     wf_board b -> wf_board (set b r c v) /\ wf_board (remove b r c)) /\
  (forall (b b' : Board) r c to_r to_c captured,
     wf_board b -> apply_move b r c to_r to_c captured = Some b' ->
     wf_board b') /\
  (forall b : Board, reachable b -> wf_board b).
Proof.
  split; [apply wf_board_new|]. split; [|split].
  - intros b r c v Hwf. split; [by apply wf_board_set|by apply wf_board_remove].
  - intros b b' r c to_r to_c captured. apply wf_board_apply_move.
  - apply wf_board_reachable.
Qed.

Lemma board_shape_kept_witness :
  wf_board new_board /\ wf_board (set new_board 4 1 (Some (PLAYER, false))).
Proof.
  destruct board_shape_kept as (Hnew & Hset & _).
  split; [exact Hnew|]. exact (proj1 (Hset new_board 4 1 _ Hnew)).
Defined.

(** ** The starting layout *)

Lemma store_as_set (b : Board) r c v :
  in_bounds r c = true -> store b r c v = set b r c v.
Proof. intros Hb. unfold set. by rewrite Hb. Qed.

Lemma setup_all_cells (b : Board) : setup b = fold_left setup_step all_cells b.
Proof. reflexivity. Qed.

Lemma setup_step_wf (b : Board) x : wf_board b -> wf_board (setup_step b x).
Proof.
  intros Hwf. unfold setup_step.
  repeat case_match; try done; by apply wf_board_store.
Qed.

Lemma setup_step_get (b : Board) x r c :
  wf_board b -> in_bounds x.1 x.2 = true ->
  get (setup_step b x) r c =
    if decide (x = (r, c)) then
      match initial_piece r c with Some p => Some p | None => get b r c end
    else get b r c.
Proof.
  intros Hwf Hb. destruct x as [xr xc]. cbn [fst snd] in *.
  unfold setup_step, initial_piece. cbn [fst snd].
  rewrite !store_as_set by done.
  case_decide as Heq.
  - inversion Heq; subst. repeat case_match; try done; by apply get_set_wf.
  - repeat case_match; try done; by apply get_set_ne.
Qed.

Lemma setup_fold_get (l : list (Z * Z)) (b : Board) r c :
  wf_board b -> List.NoDup l ->
  (forall x, In x l -> in_bounds x.1 x.2 = true) ->
  get (fold_left setup_step l b) r c =
    if decide ((r, c) ∈ l) then
      match initial_piece r c with Some p => Some p | None => get b r c end
    else get b r c.
Proof.
  revert b. induction l as [|x l IH]; intros b Hwf Hnd Hin.
  { cbn [fold_left]. rewrite decide_False; [done|]. by apply not_elem_of_nil. }
  inversion Hnd as [|? ? Hnotin Hnd']; subst. cbn [fold_left].
  rewrite IH; [|by apply setup_step_wf|done|by intros; apply Hin; right].
  rewrite setup_step_get; [|done|by apply Hin; left].
  rewrite <- list_elem_of_In in Hnotin.
  destruct (decide (x = (r, c))) as [->|Hne].
  - rewrite decide_False by done. rewrite decide_True by apply list_elem_of_here.
    done.
  - destruct (decide ((r, c) ∈ l)) as [Hl|Hl].
    + by rewrite decide_True by (by apply list_elem_of_further).
    + rewrite decide_False; [done|]. rewrite elem_of_cons. by intros [?|?].
Qed.

(** X5.  On a board of the constructor's shape [setup] writes a bot man
    on every dark cell of rows 0 to 2 and a player man on every dark cell
    of rows 5 to 7, and leaves every other cell as it found it; the new
    board has these 24 men and nothing else. *)
Theorem setup_layout (b : Board) (r c : Z) :
  wf_board b ->
  in_bounds r c = true ->
  get (setup b) r c
  = match initial_piece r c with Some p => Some p | None => get b r c end /\
  get new_board r c = initial_piece r c /\
  length (pieces new_board PLAYER) = 12%nat /\
  length (pieces new_board BOT) = 12%nat.
Proof.
  intros Hwf Hb.
  assert (forall b' : Board, wf_board b' ->
            get (setup b') r c
            = match initial_piece r c with
              | Some p => Some p
              | None => get b' r c
              end) as Hsetup.
  { intros b' Hwf'. rewrite setup_all_cells, setup_fold_get.
    - rewrite decide_True; [done|]. by apply list_elem_of_In, in_all_cells.
    - done.
    - apply all_cells_NoDup.
    - intros [xr xc] Hx. by apply in_all_cells. }
  split; [by apply Hsetup|]. split; [|by split].
  unfold new_board. rewrite Hsetup.
  - destruct (initial_piece r c); [done|].
    apply in_all_cells in Hb.
    assert (forallb (fun x : Z * Z =>
                       bool_decide (get empty_board x.1 x.2 = None)) all_cells
            = true) as Hall by (by vm_compute).
    rewrite forallb_forall in Hall. specialize (Hall (r, c) Hb).
    by apply bool_decide_eq_true in Hall.
  - split; [done|]. by repeat constructor.
Qed.

Lemma setup_layout_witness :
  wf_board double_jump_board /\ in_bounds 7 0 = true /\
  get (setup double_jump_board) 4 3 = Some (BOT, false) /\
  get (setup double_jump_board) 7 0 = Some (PLAYER, false).
Proof.
  split; [apply wf_board_of|]. split; [reflexivity|]. split.
  - exact (proj1 (setup_layout double_jump_board 4 3 (wf_board_of _) eq_refl)).
  - exact (proj1 (setup_layout double_jump_board 7 0 (wf_board_of _) eq_refl)).
Defined.

(** ** The moves [legal_moves_for] returns *)

Lemma simple_moves_In_iff (b : Board) r c p m :
  In m (simple_moves b r c p) <->
  exists dr dc, In (dr, dc) (directions p) /\ m = (r + dr, c + dc, []) /\
                in_bounds (r + dr) (c + dc) = true /\
                get b (r + dr) (c + dc) = None.
Proof.
  unfold simple_moves. rewrite in_flat_map. split.
  - intros ([dr dc] & Hd & Hin). exists dr, dc. unfold simple_at in Hin.
    destruct (in_bounds (r + dr) (c + dc)); [|done].
    destruct (get b (r + dr) (c + dc)); [done|].
    destruct Hin as [<-|[]]. done.
  - intros (dr & dc & Hd & -> & Hb & He). exists (dr, dc). split; [done|].
    unfold simple_at. rewrite Hb, He. by left.
Qed.

(** X6.  The capture chains [legal_moves_for] returns are exactly the
    non-empty sequences of open jumps from the cell that end where no jump
    is open: none is missing and none is cut short. *)
Theorem legal_moves_capture_chains (b : Board) (r c tr tc : Z)
    (caps : list (Z * Z)) :
  caps <> [] ->
  (In (tr, tc, caps) (legal_moves_for b r c) <->
   jump_path b r c caps /\
   (replay b r c caps).2 = (tr, tc) /\
   jumps_at (replay b r c caps).1 tr tc = []).
Proof.
  intros Hne. split.
  - intros Hm. apply legal_moves_for_In_capture in Hm; [|done].
    by apply _recursive_captures_chain in Hm as (_ & ? & ? & ?).
  - intros (Hpath & Hpos & Hend).
    assert (In (tr, tc, caps) (_recursive_captures b r c)) as Hm
      by (by apply _recursive_captures_chain).
    rewrite legal_moves_for_captures.
    by destruct (_recursive_captures b r c).
Qed.

Lemma legal_moves_capture_chains_witness :
  [(6, 1); (4, 3)] <> [] /\
  In (3, 4, [(6, 1); (4, 3)]) (legal_moves_for double_jump_board 7 0).
Proof.
  split; [discriminate|].
  apply (legal_moves_capture_chains double_jump_board 7 0 3 4 [(6, 1); (4, 3)]);
    [discriminate|].
  split; [|split; reflexivity].
  split; [left; reflexivity|]. split; [left; reflexivity|exact I].
Defined.

(** X7.  The simple moves [legal_moves_for] returns from a cell are
    exactly the steps of its piece, in one of its directions, onto an empty
    cell of the board, and they are returned only when the piece has no
    jump. *)
Theorem legal_moves_simple (b : Board) (r c tr tc : Z) :
  In (tr, tc, []) (legal_moves_for b r c) <->
  exists p, get b r c = Some p /\
            jump_candidates b r c p = [] /\
            In (tr - r, tc - c) (directions p) /\
            in_bounds tr tc = true /\
            get b tr tc = None.
Proof.
  split.
  - intros Hm. apply legal_moves_for_In in Hm as [Hm|(Hnil & p & Hp & Hm)].
    { by apply _recursive_captures_chain in Hm as (? & _). }
    exists p. split; [done|].
    apply _recursive_captures_nil in Hnil. unfold jumps_at in Hnil.
    rewrite Hp in Hnil. split; [done|].
    apply simple_moves_In_iff in Hm as (dr & dc & Hd & Heq & Hb & He).
    inversion Heq; subst.
    replace (r + dr - r) with dr by lia. replace (c + dc - c) with dc by lia.
    done.
  - intros (p & Hp & Hnil & Hd & Hb & He).
    rewrite legal_moves_for_eq, Hp, Hnil. cbn [expand flat_map].
    apply simple_moves_In_iff. exists (tr - r), (tc - c).
    replace (r + (tr - r)) with tr by lia. replace (c + (tc - c)) with tc by lia.
    done.
Qed.

Lemma replay_row (b : Board) r c s caps :
  Forall (fun d : Z * Z => d.1 = s) (path_directions r c caps) ->
  (replay b r c caps).2.1 = r + s * (2 * Z.of_nat (length caps)).
Proof.
  revert b r c. induction caps as [|x rest IH]; intros b r c Hs.
  { cbn. lia. }
  cbn [path_directions] in Hs. inversion Hs as [|? ? Hx Hrest]; subst.
  cbn [replay jump_over fst snd]. rewrite IH by done.
  cbn [fst length]. lia.
Qed.

(** X8.  A man only moves forward: every move returned for a man of the
    player ends one row up for a step and two rows up per captured piece
    for a chain, and every move of a bot man ends as many rows down. *)
Theorem men_move_forward (b : Board) (r c : Z) (color : Color) (tr tc : Z)
    (caps : list (Z * Z)) :
  get b r c = Some (color, false) ->
  In (tr, tc, caps) (legal_moves_for b r c) ->
  tr = r + (if bool_decide (color = PLAYER) then -1 else 1)
           * (match caps with [] => 1 | _ => 2 * Z.of_nat (length caps) end).
Proof.
  intros Hp Hm. set (s := if bool_decide (color = PLAYER) then -1 else 1).
  apply legal_moves_for_In in Hm as [Hm|(_ & p & Hp' & Hm)].
  - apply _recursive_captures_chain in Hm as (Hne & Hpath & Hpos & _).
    pose proof (jump_path_directions b r c _ caps Hp Hpath) as Hdirs.
    assert (Forall (fun d : Z * Z => d.1 = s) (path_directions r c caps)) as Hs.
    { eapply Forall_impl; [exact Hdirs|]. intros d. apply directions_man. }
    pose proof (replay_row b r c s caps Hs) as Hrow. rewrite Hpos in Hrow.
    cbn [fst] in Hrow. by destruct caps.
  - assert (p = (color, false)) as -> by congruence.
    apply simple_moves_In in Hm as (dr & dc & Hd & Heq & _).
    inversion Heq; subst. apply directions_man in Hd. cbn [fst] in Hd.
    fold s in Hd. lia.
Qed.

Lemma men_move_forward_witness :
  get double_jump_board 7 0 = Some (PLAYER, false) /\
  In (3, 4, [(6, 1); (4, 3)]) (legal_moves_for double_jump_board 7 0) /\
  3 = 7 + -1 * (2 * 2).
Proof.
  split; [reflexivity|]. split; [left; reflexivity|].
  exact (men_move_forward double_jump_board 7 0 PLAYER 3 4 [(6, 1); (4, 3)]
           eq_refl (or_introl eq_refl)).
Defined.

(** ** The cells a chain touches *)

Lemma get_remove_all (b : Board) cells y1 y2 :
  get (remove_all b cells) y1 y2 =
    if decide ((y1, y2) ∈ cells) then None else get b y1 y2.
Proof.
  revert b. induction cells as [|[cr cc] cells IH]; intros b.
  { cbn. rewrite decide_False; [done|]. apply not_elem_of_nil. }
  cbn [remove_all fold_left]. change (fold_left _ cells ?b') with (remove_all b' cells).
  rewrite IH. destruct (decide ((y1, y2) ∈ cells)) as [Hin|Hin].
  - by rewrite decide_True by (by apply list_elem_of_further).
  - destruct (decide ((cr, cc) = (y1, y2))) as [Heq|Hne].
    + inversion Heq; subst. rewrite get_remove_eq.
      by rewrite decide_True by apply list_elem_of_here.
    + rewrite get_remove_ne by done. rewrite decide_False; [done|].
      rewrite elem_of_cons. intros [?|?]; congruence.
Qed.

Lemma replay_app (b : Board) r c l1 l2 :
  replay b r c (l1 ++ l2) =
    replay (replay b r c l1).1 (replay b r c l1).2.1 (replay b r c l1).2.2 l2.
Proof.
  revert b r c. induction l1 as [|x l1 IH]; intros b r c; [done|].
  cbn [app replay]. apply IH.
Qed.

(** The cells of the board a path of jumps leads to, on a board of the
    constructor's shape: the piece on the last landing cell, nothing on the
    source and the captured cells, the rest as before. *)
Lemma replay_get (b : Board) r c p caps y1 y2 :
  wf_board b -> get b r c = Some p -> jump_path b r c caps ->
  get (replay b r c caps).1 y1 y2 =
    if decide ((y1, y2) = (replay b r c caps).2) then Some p
    else if decide ((y1, y2) = (r, c) \/ (y1, y2) ∈ caps) then None
    else get b y1 y2.
Proof.
  intros Hwf Hp Hpath.
  destruct (replay_after_chain b r c p caps Hwf Hp Hpath) as (Hboard & Hpiece & _).
  destruct (replay b r c caps) as [b' [t1 t2]] eqn:Hreplay. cbn [fst snd] in *.
  case_decide as Heq; [by inversion Heq; subst|].
  rewrite Hboard. unfold after_chain. rewrite get_set_ne by congruence.
  rewrite get_remove_all.
  destruct (decide ((y1, y2) ∈ caps)) as [Hin|Hin].
  { by rewrite decide_True by (by right). }
  destruct (decide ((y1, y2) = (r, c))) as [Hsrc|Hsrc].
  - inversion Hsrc; subst. rewrite get_remove_eq.
    by rewrite decide_True by (by left).
  - rewrite get_remove_ne by congruence. rewrite decide_False; [done|].
    by intros [?|?].
Qed.

(** Captured cells lie an odd number of rows from the source, landing
    cells an even number. *)
Lemma jump_path_rows (b : Board) r c caps :
  jump_path b r c caps ->
  Forall (fun x : Z * Z => Z.odd x.1 = negb (Z.odd r)) caps /\
  Z.odd (replay b r c caps).2.1 = Z.odd r.
Proof.
  revert b r c. induction caps as [|x rest IH]; intros b r c Hpath.
  { split; [constructor|done]. }
  destruct Hpath as [Hopen Hpath]. cbn [replay jump_over fst snd] in *.
  apply jump_over_open in Hopen as (p & _ & Hd & _).
  apply directions_unit in Hd as [Hd _].
  assert (Z.odd x.1 = negb (Z.odd r)) as Hx.
  { replace x.1 with (r + (x.1 - r)) at 1 by lia. rewrite Z.odd_add.
    destruct Hd as [-> | ->]; by destruct (Z.odd r). }
  assert (Z.odd (x.1 + (x.1 - r)) = Z.odd r) as Hj.
  { rewrite Z.odd_add, Hx. destruct Hd as [-> | ->]; by destruct (Z.odd r). }
  destruct (IH _ _ _ Hpath) as [Hrest Hland]. rewrite Hj in Hrest, Hland.
  split; [by constructor|done].
Qed.

(** The jump that follows the prefix [l1] of a path, seen on the board
    the path starts from: the captured cell holds an opponent there and
    was not captured before; the landing cell is on the board, and was
    empty there unless it is the source or a cell captured before. *)
Lemma jump_path_step (b : Board) r c p l1 x l2 :
  wf_board b -> get b r c = Some p -> jump_path b r c (l1 ++ x :: l2) ->
  (exists q, get b x.1 x.2 = Some q /\ q.1 = opponent p.1) /\
  (x ∉ l1) /\
  in_bounds (replay b r c (l1 ++ [x])).2.1 (replay b r c (l1 ++ [x])).2.2 = true /\
  (get b (replay b r c (l1 ++ [x])).2.1 (replay b r c (l1 ++ [x])).2.2 = None \/
   (replay b r c (l1 ++ [x])).2 = (r, c) \/
   (replay b r c (l1 ++ [x])).2 ∈ l1).
Proof.
  intros Hwf Hp Hpath.
  pose proof (jump_path_prefix _ _ _ _ _ Hpath) as Hpre.
  apply jump_path_app in Hpath. destruct Hpath as [Hopen _].
  pose proof (replay_get b r c p l1) as Hget.
  rewrite replay_app. cbn [replay jump_over fst snd].
  destruct (replay b r c l1) as [b1 [r1 c1]] eqn:Hreplay. cbn [fst snd] in *.
  apply jump_over_open in Hopen as (p1 & Hp1 & _ & _ & Hland & (q & Hq & Hopp) & He).
  assert (p1 = p) as ->.
  { specialize (Hget r1 c1 Hwf Hp Hpre). rewrite decide_True in Hget by done.
    congruence. }
  pose proof (Hget x.1 x.2 Hwf Hp Hpre) as Hx. rewrite Hq in Hx.
  pose proof (Hget (x.1 + (x.1 - r1)) (x.2 + (x.2 - c1)) Hwf Hp Hpre) as Hl.
  rewrite He in Hl.
  assert (q <> p) as Hqp.
  { intros ->. by apply (opponent_ne p.1). }
  destruct x as [x1 x2]. cbn [fst snd] in *.
  repeat case_decide; try congruence; try tauto.
  - split; [by exists q|]. split; [tauto|]. split; [done|]. tauto.
  - split; [by exists q|]. split; [tauto|]. split; [done|]. by left.
Qed.

Lemma legal_moves_for_path (b : Board) r c tr tc caps :
  In (tr, tc, caps) (legal_moves_for b r c) -> jump_path b r c caps.
Proof.
  intros Hm. apply legal_moves_for_In in Hm as [Hm|(_ & p' & _ & Hm)].
  - by apply _recursive_captures_chain in Hm as (_ & ? & _).
  - apply simple_moves_In in Hm as (dr & dc & _ & Heq & _). by inversion Heq.
Qed.

Lemma NoDup_by_prefix {A} (l : list A) :
  (forall l1 x l2, l = l1 ++ x :: l2 -> x ∉ l1) -> NoDup l.
Proof.
  induction l as [|y l IH] using rev_ind; intros H; [constructor|].
  apply NoDup_app. split; [|split].
  - apply IH. intros l1 x l2 ->. apply (H l1 x (l2 ++ [y])).
    by rewrite <- app_assoc.
  - intros x Hx Hy. apply list_elem_of_singleton in Hy as ->.
    by apply (H l y []).
  - apply NoDup_singleton.
Qed.

Lemma legal_moves_for_captured (b : Board) (r c : Z) (p : Piece)
    (tr tc : Z) (caps : list (Z * Z)) :
  wf_board b ->
  get b r c = Some p ->
  In (tr, tc, caps) (legal_moves_for b r c) ->
  List.NoDup caps /\
  Forall (fun x : Z * Z =>
            exists q, get b x.1 x.2 = Some q /\ q.1 = opponent p.1) caps.
Proof.
  intros Hwf Hp Hm. apply legal_moves_for_path in Hm. split.
  - apply NoDup_ListNoDup, NoDup_by_prefix. intros l1 x l2 ->.
    by destruct (jump_path_step b r c p l1 x l2 Hwf Hp Hm) as (_ & ? & _).
  - apply Forall_forall. intros x Hx.
    apply list_elem_of_split in Hx as (l1 & l2 & ->).
    by destruct (jump_path_step b r c p l1 x l2 Hwf Hp Hm) as (? & _).
Qed.

(** X9.  On a board of the constructor's shape, the captured cells of a
    returned move are pairwise distinct and each holds, on the board the
    move was generated from, a piece of the opponent. *)
Theorem captured_cells_hold_opponents (b : Board) (r c : Z) (p : Piece)
    (tr tc : Z) (caps : list (Z * Z)) :
  wf_board b ->
  get b r c = Some p ->
  In (tr, tc, caps) (legal_moves_for b r c) ->
  List.NoDup caps /\
  Forall (fun x : Z * Z =>
            exists q, get b x.1 x.2 = Some q /\ q.1 = opponent p.1) caps.
Proof. apply legal_moves_for_captured. Qed.

Lemma captured_cells_hold_opponents_witness :
  wf_board double_jump_board /\
  get double_jump_board 7 0 = Some (PLAYER, false) /\
  In (3, 4, [(6, 1); (4, 3)]) (legal_moves_for double_jump_board 7 0) /\
  List.NoDup [(6, 1); (4, 3)].
Proof.
  split; [apply wf_board_of|]. split; [reflexivity|].
  split; [left; reflexivity|].
  exact (proj1 (captured_cells_hold_opponents double_jump_board 7 0
                  (PLAYER, false) 3 4 [(6, 1); (4, 3)] (wf_board_of _)
                  eq_refl (or_introl eq_refl))).
Defined.

Lemma legal_moves_for_destination (b : Board) (r c tr tc : Z)
    (caps : list (Z * Z)) :
  wf_board b ->
  In (tr, tc, caps) (legal_moves_for b r c) ->
  in_bounds tr tc = true /\
  ~ In (tr, tc) caps /\
  (get b tr tc = None \/ ((tr, tc) = (r, c) /\ caps <> [])).
Proof.
  intros Hwf Hm. destruct (legal_moves_for_occupied _ _ _ _ Hm) as [p Hp].
  pose proof (legal_moves_for_path _ _ _ _ _ _ Hm) as Hpath.
  apply legal_moves_for_In in Hm as [Hm|(_ & p' & _ & Hm)].
  - apply _recursive_captures_chain in Hm as (Hne & _ & Hpos & _).
    destruct (jump_path_rows _ _ _ _ Hpath) as [Hrows Hland].
    rewrite Hpos in Hland. cbn [fst] in Hland.
    assert (~ In (tr, tc) caps) as Hnotin.
    { intros Hin. rewrite Forall_forall in Hrows.
      apply list_elem_of_In, Hrows in Hin. cbn [fst] in Hin.
      rewrite Hland in Hin. by destruct (Z.odd r). }
    destruct (exists_last Hne) as (l1 & x & ->).
    destruct (jump_path_step b r c p l1 x [] Hwf Hp Hpath)
      as (_ & _ & Hb & Hdest).
    rewrite Hpos in Hb, Hdest. cbn [fst snd] in Hb, Hdest.
    split; [done|]. split; [done|].
    destruct Hdest as [?|[?|Hin]]; [by left|by right|].
    exfalso. apply Hnotin, in_app_iff. left. by apply list_elem_of_In.
  - apply simple_moves_In_iff in Hm as (dr & dc & _ & Heq & Hb & He).
    inversion Heq; subst. split; [done|]. split; [by intros []|by left].
Qed.

(** X10.  On a board of the constructor's shape, the destination of a
    returned move is on the board, is none of the captured cells, and is
    empty on the board the move was generated from, unless it is the source
    cell itself at the end of a chain. *)
Theorem legal_move_destination (b : Board) (r c tr tc : Z)
    (caps : list (Z * Z)) :
  wf_board b ->
  In (tr, tc, caps) (legal_moves_for b r c) ->
  in_bounds tr tc = true /\
  ~ In (tr, tc) caps /\
  (get b tr tc = None \/ ((tr, tc) = (r, c) /\ caps <> [])).
Proof. apply legal_moves_for_destination. Qed.

Lemma legal_move_destination_witness :
  wf_board ring_board /\
  In (2, 3, [(3, 2); (5, 2); (5, 4); (3, 4)]) (legal_moves_for ring_board 2 3) /\
  in_bounds 2 3 = true.
Proof.
  split; [apply wf_board_of|]. split; [left; reflexivity|].
  exact (proj1 (legal_move_destination ring_board 2 3 2 3
                  [(3, 2); (5, 2); (5, 4); (3, 4)] (wf_board_of _)
                  (or_introl eq_refl))).
Defined.

(** ** The cells after [apply_move] *)

(** The cells of the board [apply_move] returns, on a board of the
    constructor's shape and for a destination inside the bounds. *)
Lemma apply_move_get_wf (b b' : Board) r c to_r to_c captured color king y1 y2 :
  wf_board b -> in_bounds to_r to_c = true ->
  get b r c = Some (color, king) ->
  apply_move b r c to_r to_c captured = Some b' ->
  get b' y1 y2 =
    if decide ((y1, y2) = (to_r, to_c) /\ promotes color to_r = true)
    then Some (color, true)
    else if decide ((y1, y2) ∈ captured \/ (y1, y2) = (r, c)) then None
    else if decide ((y1, y2) = (to_r, to_c)) then Some (color, king)
    else get b y1 y2.
Proof.
  intros Hwf Hb Hp. unfold apply_move. rewrite Hp.
  assert (get (remove_all (remove (set b to_r to_c (Some (color, king))) r c)
                          captured) y1 y2
          = if decide ((y1, y2) ∈ captured \/ (y1, y2) = (r, c)) then None
            else if decide ((y1, y2) = (to_r, to_c)) then Some (color, king)
            else get b y1 y2) as Hmoved.
  { rewrite get_remove_all.
    destruct (decide ((y1, y2) ∈ captured)) as [Hin|Hin].
    { by rewrite decide_True by (by left). }
    destruct (decide ((y1, y2) = (r, c))) as [Hsrc|Hsrc].
    { inversion Hsrc; subst. rewrite get_remove_eq.
      by rewrite decide_True by (by right). }
    rewrite decide_False by (by intros [?|?]).
    rewrite get_remove_ne by congruence. case_decide as Hto.
    - inversion Hto; subst. by apply get_set_wf.
    - apply get_set_ne. congruence. }
  destruct (promotes color to_r) eqn:Hking; intros [= <-].
  - destruct (decide ((y1, y2) = (to_r, to_c) /\ true = true)) as [[Hto _]|Hto].
    + inversion Hto; subst. apply get_set_wf; [|done].
      by apply wf_board_remove_all, wf_board_remove, wf_board_set.
    + rewrite get_set_ne; [done|]. intros Heq. apply Hto. split; congruence.
  - rewrite decide_False by (by intros [_ ?]). done.
Qed.

(** X11.  On a board of the constructor's shape, a successful call of
    [apply_move] with a destination inside the bounds leaves: a king of the
    mover's colour on the destination when the kinging test holds; else
    nothing on the source and the captured cells; else the moved piece on
    the destination; and every other cell as it was. *)
Theorem apply_move_cells (b b' : Board) (r c to_r to_c : Z)
    (captured : list (Z * Z)) (color : Color) (king : bool) :
  wf_board b ->
  in_bounds to_r to_c = true ->
  get b r c = Some (color, king) ->
  apply_move b r c to_r to_c captured = Some b' ->
  forall y1 y2,
    get b' y1 y2 =
      if decide ((y1, y2) = (to_r, to_c) /\ promotes color to_r = true)
      then Some (color, true)
      else if decide ((y1, y2) ∈ captured \/ (y1, y2) = (r, c)) then None
      else if decide ((y1, y2) = (to_r, to_c)) then Some (color, king)
      else get b y1 y2.
Proof. intros Hwf Hb Hp Happly y1 y2. by eapply apply_move_get_wf. Qed.

Lemma apply_move_cells_witness :
  wf_board new_board /\ in_bounds 4 1 = true /\
  get new_board 5 0 = Some (PLAYER, false) /\
  apply_move new_board 5 0 4 1 [] = Some opening_board /\
  get opening_board 4 1 = Some (PLAYER, false) /\
  get opening_board 5 0 = None.
Proof.
  split; [apply wf_board_new|]. split; [reflexivity|]. split; [reflexivity|].
  split; [reflexivity|].
  pose proof (apply_move_cells new_board opening_board 5 0 4 1 [] PLAYER false
                wf_board_new eq_refl eq_refl eq_refl) as Hcells.
  split; [exact (Hcells 4 1)|exact (Hcells 5 0)].
Defined.

(** X12.  When the destination of a call is its source cell, as for the
    chain of a king that ends where it started, [apply_move] clears the
    cell after writing the piece on it: the piece is on the board
    afterwards only if the kinging test holds and writes it again. *)
Theorem apply_move_back_to_source (b b' : Board) (r c : Z)
    (captured : list (Z * Z)) (color : Color) (king : bool) :
  wf_board b ->
  get b r c = Some (color, king) ->
  apply_move b r c r c captured = Some b' ->
  get b' r c = if promotes color r then Some (color, true) else None.
Proof.
  intros Hwf Hp Happly.
  rewrite (apply_move_get_wf b b' r c r c captured color king r c Hwf
             (get_in_bounds _ _ _ _ Hp) Hp Happly).
  destruct (promotes color r).
  - by rewrite decide_True.
  - rewrite decide_False by (by intros [_ ?]).
    by rewrite decide_True by (by right).
Qed.

Lemma apply_move_back_to_source_witness :
  wf_board ring_board /\
  get ring_board 2 3 = Some (PLAYER, true) /\
  In (2, 3, [(3, 2); (5, 2); (5, 4); (3, 4)]) (legal_moves_for ring_board 2 3) /\
  (forall b', apply_move ring_board 2 3 2 3 [(3, 2); (5, 2); (5, 4); (3, 4)]
              = Some b' -> get b' 2 3 = None).
Proof.
  split; [apply wf_board_of|]. split; [reflexivity|].
  split; [left; reflexivity|]. intros b' Happly.
  exact (apply_move_back_to_source ring_board b' 2 3 _ PLAYER true
           (wf_board_of _) eq_refl Happly).
Defined.

(** ** Counting the pieces after [apply_move] *)

Lemma count_cells_le f g (l : list (Z * Z)) :
  (forall y, In y l -> f y = true -> g y = true) ->
  (count_cells f l <= count_cells g l)%nat.
Proof.
  unfold count_cells. induction l as [|a l IH]; intros H; [done|].
  cbn [List.filter]. specialize (IH (fun y Hy => H y (or_intror Hy))).
  destruct (f a) eqn:Hf.
  - rewrite (H a (or_introl eq_refl) Hf). cbn [length]. lia.
  - destruct (g a); cbn [length]; lia.
Qed.

Lemma count_cells_lt f g (l : list (Z * Z)) x :
  In x l -> f x = false -> g x = true ->
  (forall y, In y l -> f y = true -> g y = true) ->
  (count_cells f l < count_cells g l)%nat.
Proof.
  unfold count_cells. induction l as [|a l IH]; intros Hin Hf Hg H; [done|].
  cbn [List.filter].
  pose proof (count_cells_le f g l (fun y Hy => H y (or_intror Hy))) as Hle.
  unfold count_cells in Hle.
  destruct Hin as [->|Hin].
  - rewrite Hf, Hg. cbn [length]. lia.
  - specialize (IH Hin Hf Hg (fun y Hy => H y (or_intror Hy))).
    destruct (f a) eqn:Hfa.
    + rewrite (H a (or_introl eq_refl) Hfa). cbn [length]. lia.
    + destruct (g a); cbn [length]; lia.
Qed.

Lemma count_cells_ext f g (l : list (Z * Z)) :
  (forall y, In y l -> f y = g y) -> count_cells f l = count_cells g l.
Proof. intros H. unfold count_cells. f_equal. by apply List.filter_ext_in. Qed.

(** Leaving one cell out lowers the count by one at most. *)
Lemma count_cells_except f (l : list (Z * Z)) x :
  List.NoDup l ->
  (count_cells f l
   <= S (count_cells (fun y => f y && negb (bool_decide (y = x))) l))%nat.
Proof.
  intros Hnd. destruct (f x) eqn:Hf.
  - destruct (decide (x ∈ l)) as [Hin|Hin]; rewrite list_elem_of_In in Hin.
    + rewrite (count_cells_one_less
                 (fun y => f y && negb (bool_decide (y = x))) f l x); try done.
      * by rewrite bool_decide_eq_true_2, andb_false_r.
      * intros y Hne. by rewrite bool_decide_eq_false_2, andb_true_r.
    + rewrite (count_cells_ext f (fun y => f y && negb (bool_decide (y = x)))).
      * lia.
      * intros y Hy. rewrite bool_decide_eq_false_2, andb_true_r; [done|].
        by intros ->.
  - rewrite (count_cells_ext f (fun y => f y && negb (bool_decide (y = x)))).
    + lia.
    + intros y _. case_bool_decide; subst; by rewrite ?Hf, ?andb_true_r.
Qed.

(** Leaving out a list of distinct cells that all count lowers the count
    by the length of the list. *)
Lemma count_cells_remove_list f (l caps : list (Z * Z)) :
  List.NoDup l -> List.NoDup caps ->
  (forall x, In x caps -> In x l /\ f x = true) ->
  (count_cells (fun y => f y && negb (bool_decide (y ∈ caps))) l
   + length caps)%nat
  = count_cells f l.
Proof.
  intros Hnd. revert f. induction caps as [|x rest IH]; intros f Hcaps Hall.
  { cbn [length]. rewrite Nat.add_0_r. apply count_cells_ext. intros y _.
    rewrite bool_decide_eq_false_2 by apply not_elem_of_nil.
    by rewrite andb_true_r. }
  inversion Hcaps as [|? ? Hnotin Hrest]; subst.
  rewrite <- (IH f Hrest) by (intros y Hy; apply Hall; by right).
  cbn [length]. rewrite Nat.add_succ_r. f_equal. rewrite <- Nat.add_succ_l.
  f_equal.
  apply count_cells_one_less with (x := x); try done.
  - by apply Hall; left.
  - rewrite (bool_decide_eq_true_2 (x ∈ x :: rest)) by apply list_elem_of_here.
    by rewrite andb_false_r.
  - destruct (Hall x (or_introl eq_refl)) as [_ ->].
    rewrite bool_decide_eq_false_2; [done|]. by rewrite list_elem_of_In.
  - intros y Hne. f_equal. f_equal. apply bool_decide_ext.
    rewrite elem_of_cons. split; [intros [?|?]; [congruence|done]|by right].
Qed.

Lemma apply_move_source (b b' : Board) r c to_r to_c captured :
  apply_move b r c to_r to_c captured = Some b' ->
  (r, c) <> (to_r, to_c) -> get b' r c = None.
Proof.
  unfold apply_move. destruct (get b r c) as [[color king]|]; [|done].
  assert (forall X : Board, get (remove_all (remove X r c) captured) r c = None)
    as Hsrc.
  { intros X. rewrite get_remove_all. case_decide; [done|]. apply get_remove_eq. }
  destruct (promotes color to_r); intros [= <-] Hne; [|done].
  rewrite get_set_ne by congruence. apply Hsrc.
Qed.

(** X13.  A successful call of [apply_move], legal or not, creates no
    piece: neither colour has more pieces on the board afterwards. *)
Theorem apply_move_creates_no_piece (b b' : Board) (r c to_r to_c : Z)
    (captured : list (Z * Z)) (color : Color) :
  apply_move b r c to_r to_c captured = Some b' ->
  (length (pieces b' color) <= length (pieces b color))%nat.
Proof.
  intros Happly. rewrite !pieces_length.
  assert (exists mover king, get b r c = Some (mover, king)) as (mover & king & Hp).
  { unfold apply_move in Happly. destruct (get b r c) as [[m k]|]; [eauto|done]. }
  assert (forall y, occupied_by b' color y = true ->
            (y = (to_r, to_c) /\ color = mover) \/
            (y <> (to_r, to_c) /\ occupied_by b color y = true)) as Hocc.
  { intros [y1 y2]. unfold occupied_by. cbn [fst snd].
    destruct (get b' y1 y2) as [q|] eqn:Hq; [|done]. intros Hcol.
    apply bool_decide_eq_true in Hcol.
    destruct (apply_move_get _ _ _ _ _ _ _ _ _ _ Happly Hq)
      as [[Heq (m & k & Hm & Hqc & _)]|[Hne Hold]].
    - left. split; [done|]. congruence.
    - right. split; [done|]. rewrite Hold. by apply bool_decide_eq_true_2. }
  assert (occupied_by b mover (r, c) = true) as Hsrc.
  { unfold occupied_by. cbn [fst snd]. rewrite Hp.
    by apply bool_decide_eq_true_2. }
  destruct (decide (color = mover /\ (r, c) <> (to_r, to_c))) as [[-> Hne]|Hno].
  - etrans; [apply (count_cells_except _ _ (to_r, to_c) all_cells_NoDup)|].
    apply (count_cells_lt _ _ _ (r, c)); try done.
    + apply in_all_cells. by eapply get_in_bounds.
    + unfold occupied_by at 1. cbn [fst snd].
      by rewrite (apply_move_source _ _ _ _ _ _ _ Happly Hne).
    + intros y _ Hy. apply andb_true_iff in Hy as [Hy Hto].
      apply negb_true_iff, bool_decide_eq_false in Hto.
      by destruct (Hocc y Hy) as [[? _]|[_ ?]].
  - apply count_cells_le. intros y _ Hy.
    destruct (Hocc y Hy) as [[-> ->]|[_ ?]]; [|done].
    destruct (decide ((r, c) = (to_r, to_c))) as [<-|Hne]; [done|].
    exfalso. by apply Hno.
Qed.

Lemma apply_move_creates_no_piece_witness :
  apply_move new_board 5 0 4 1 [] = Some opening_board /\
  (length (pieces opening_board PLAYER) <= length (pieces new_board PLAYER))%nat.
Proof.
  split; [reflexivity|].
  exact (apply_move_creates_no_piece new_board opening_board 5 0 4 1 [] PLAYER
           eq_refl).
Defined.

(** Settles every [decide] of the goal that the hypotheses decide. *)
Ltac settle_decide :=
  repeat match goal with
    | |- context [@decide ?P ?d] =>
        first [ rewrite (@decide_True _ P d) by (intuition congruence)
              | rewrite (@decide_False _ P d) by (intuition congruence) ]
    end.

Lemma occupied_by_Some (b : Board) (col : Color) y1 y2 q :
  get b y1 y2 = Some q -> occupied_by b col (y1, y2) = bool_decide (q.1 = col).
Proof. intros H. unfold occupied_by. cbn [fst snd]. by rewrite H. Qed.

Lemma occupied_by_None (b : Board) (col : Color) y1 y2 :
  get b y1 y2 = None -> occupied_by b col (y1, y2) = false.
Proof. intros H. unfold occupied_by. cbn [fst snd]. by rewrite H. Qed.

(** X14.  On a board of the constructor's shape, applying a move taken
    from [legal_moves_for] takes from the opponent exactly the captured
    pieces, and leaves the mover's side with as many pieces as before
    unless the move ends on its own source cell. *)
Theorem legal_move_piece_counts (b b' : Board) (r c : Z) (p : Piece)
    (tr tc : Z) (caps : list (Z * Z)) :
  wf_board b ->
  get b r c = Some p ->
  In (tr, tc, caps) (legal_moves_for b r c) ->
  apply_move b r c tr tc caps = Some b' ->
  (length (pieces b' (opponent p.1)) + length caps)%nat
  = length (pieces b (opponent p.1)) /\
  ((tr, tc) <> (r, c) -> length (pieces b' p.1) = length (pieces b p.1)).
Proof.
  intros Hwf Hp Hm Happly. destruct p as [color king]. cbn [fst].
  destruct (legal_moves_for_captured b r c _ tr tc caps Hwf Hp Hm)
    as [Hnd Hopp].
  destruct (legal_moves_for_destination b r c tr tc caps Hwf Hm)
    as (Hb & Hnotin & Hdest).
  rewrite <- list_elem_of_In in Hnotin.
  pose proof (fun y1 y2 =>
                apply_move_get_wf b b' r c tr tc caps color king y1 y2
                  Hwf Hb Hp Happly) as Hcell.
  rewrite Forall_forall in Hopp. cbn [fst] in Hopp.
  assert (opponent color <> color) as Hoc by apply opponent_ne.
  assert (forall x, x ∈ caps ->
            occupied_by b (opponent color) x = true /\
            occupied_by b color x = false /\ In x all_cells) as Hcap.
  { intros [x1 x2] Hx. destruct (Hopp _ Hx) as (q & Hq & Hcol).
    cbn [fst snd] in Hq. rewrite !(occupied_by_Some _ _ _ _ _ Hq), Hcol.
    split; [by apply bool_decide_eq_true_2|].
    split; [by apply bool_decide_eq_false_2|].
    apply in_all_cells. by eapply get_in_bounds. }
  assert (occupied_by b (opponent color) (r, c) = false) as Hsrc_opp.
  { rewrite (occupied_by_Some _ _ _ _ _ Hp). by apply bool_decide_eq_false_2. }
  assert (occupied_by b color (r, c) = true) as Hsrc_own.
  { rewrite (occupied_by_Some _ _ _ _ _ Hp). by apply bool_decide_eq_true_2. }
  assert (occupied_by b (opponent color) (tr, tc) = false) as Hto_opp.
  { destruct Hdest as [He|[Heq _]]; [by apply occupied_by_None|].
    by rewrite Heq. }
  assert (forall col y1 y2,
            occupied_by b' col (y1, y2) =
              if decide ((y1, y2) = (tr, tc) /\ promotes color tr = true)
              then bool_decide (color = col)
              else if decide ((y1, y2) ∈ caps \/ (y1, y2) = (r, c)) then false
              else if decide ((y1, y2) = (tr, tc)) then bool_decide (color = col)
              else occupied_by b col (y1, y2)) as Hocc.
  { intros col y1 y2. unfold occupied_by. cbn [fst snd]. rewrite Hcell.
    by repeat case_decide. }
  rewrite !pieces_length. split.
  - rewrite <- (count_cells_remove_list (occupied_by b (opponent color))
                  all_cells caps all_cells_NoDup Hnd).
    + f_equal. apply count_cells_ext. intros [y1 y2] _. rewrite Hocc.
      rewrite (bool_decide_eq_false_2 (color = opponent color)) by done.
      destruct (decide ((y1, y2) ∈ caps)) as [Hin|Hin].
      { rewrite (bool_decide_eq_true_2 _ Hin), andb_false_r.
        repeat case_decide; first [done | intuition congruence]. }
      rewrite (bool_decide_eq_false_2 _ Hin), andb_true_r.
      destruct (decide ((y1, y2) = (tr, tc))) as [Heq|Hne].
      { rewrite Heq, Hto_opp. repeat case_decide; first [done | intuition congruence]. }
      destruct (decide ((y1, y2) = (r, c))) as [Heq|Hsrc].
      { rewrite Heq, Hsrc_opp. repeat case_decide; first [done | intuition congruence]. }
      by settle_decide.
    + intros x Hx. apply list_elem_of_In in Hx.
      by destruct (Hcap x Hx) as (? & _ & ?).
  - intros Hne.
    assert (get b tr tc = None) as Hempty by (by destruct Hdest as [?|[? _]]).
    set (g := fun y => occupied_by b color y && negb (bool_decide (y = (r, c)))).
    assert (S (count_cells g all_cells)
            = count_cells (occupied_by b color) all_cells) as Hold.
    { apply count_cells_one_less with (x := (r, c)).
      - apply all_cells_NoDup.
      - apply in_all_cells. by eapply get_in_bounds.
      - unfold g. by rewrite bool_decide_eq_true_2, andb_false_r.
      - done.
      - intros y Hy. unfold g. by rewrite bool_decide_eq_false_2, andb_true_r. }
    assert (S (count_cells g all_cells)
            = count_cells (occupied_by b' color) all_cells) as Hnew.
    { apply count_cells_one_less with (x := (tr, tc)).
      - apply all_cells_NoDup.
      - by apply in_all_cells.
      - unfold g. by rewrite (occupied_by_None _ _ _ _ Hempty).
      - rewrite Hocc. rewrite (bool_decide_eq_true_2 (color = color)) by done.
        destruct (promotes color tr); by settle_decide.
      - intros [y1 y2] Hy. unfold g. rewrite Hocc.
        destruct (decide ((y1, y2) = (r, c))) as [Heq|Hsrc].
        { rewrite (bool_decide_eq_true_2 _ Heq), andb_false_r. by settle_decide. }
        rewrite (bool_decide_eq_false_2 _ Hsrc), andb_true_r.
        destruct (decide ((y1, y2) ∈ caps)) as [Hin|Hin].
        { destruct (Hcap _ Hin) as (_ & -> & _). by settle_decide. }
        by settle_decide. }
    congruence.
Qed.

Lemma legal_move_piece_counts_witness :
  wf_board double_jump_board /\
  get double_jump_board 7 0 = Some (PLAYER, false) /\
  In (3, 4, [(6, 1); (4, 3)]) (legal_moves_for double_jump_board 7 0) /\
  (forall b', apply_move double_jump_board 7 0 3 4 [(6, 1); (4, 3)] = Some b' ->
              (length (pieces b' BOT) + 2)%nat
              = length (pieces double_jump_board BOT)).
Proof.
  split; [apply wf_board_of|]. split; [reflexivity|].
  split; [left; reflexivity|]. intros b' Happly.
  exact (proj1 (legal_move_piece_counts double_jump_board b' 7 0 (PLAYER, false)
                  3 4 [(6, 1); (4, 3)] (wf_board_of _) eq_refl
                  (or_introl eq_refl) Happly)).
Defined.

(** ** Promotion *)

Lemma back_rank_kings_new : back_rank_kings new_board.
Proof.
  intros r c color king Hp Hrow.
  pose proof (get_in_bounds _ _ _ _ Hp) as Hb. apply in_all_cells in Hb.
  assert (forallb (fun x : Z * Z =>
                     match get new_board x.1 x.2 with
                     | Some (col, k) => implb (promotes col x.1) k
                     | None => true
                     end) all_cells = true) as Hall by (by vm_compute).
  rewrite forallb_forall in Hall. specialize (Hall (r, c) Hb).
  cbn [fst snd] in Hall. rewrite Hp, Hrow in Hall. done.
Qed.

Lemma back_rank_kings_apply_move (b b' : Board) r c to_r to_c captured :
  back_rank_kings b -> apply_move b r c to_r to_c captured = Some b' ->
  back_rank_kings b'.
Proof.
  intros Hinv Happly y1 y2 col k Hq Hrow.
  destruct (apply_move_get _ _ _ _ _ _ _ _ _ _ Happly Hq)
    as [[Heq (color & king & Hp & _)]|[_ Hold]]; [|by eapply Hinv].
  inversion Heq; subst y1 y2.
  pose proof (apply_move_destination _ _ _ _ _ _ _ _ _ _ Happly Hp Hq) as Hdest.
  inversion Hdest; subst. by rewrite Hrow, orb_true_r.
Qed.

(** X15.  Every piece that stands on the row where its colour is kinged
    is a king: this holds on the new board, every successful call of
    [apply_move] keeps it, and so it holds on every board of a game. *)
Theorem back_rank_pieces_are_kings :
  back_rank_kings new_board /\
  (forall (b b' : Board) r c to_r to_c captured,
     back_rank_kings b -> apply_move b r c to_r to_c captured = Some b' ->
     back_rank_kings b') /\
  (forall b : Board, reachable b -> back_rank_kings b).
Proof.
  split; [apply back_rank_kings_new|]. split.
  - intros b b' r c to_r to_c captured. apply back_rank_kings_apply_move.
  - induction 1 as [|b b' r c to_r to_c captured _ IH _ Happly].
    + apply back_rank_kings_new.
    + by eapply back_rank_kings_apply_move.
Qed.

Lemma back_rank_pieces_are_kings_witness :
  reachable opening_board /\ back_rank_kings opening_board.
Proof.
  assert (reachable opening_board) as Hreach.
  { apply (reachable_move new_board opening_board 5 0 4 1 []).
    - apply reachable_new.
    - left. reflexivity.
    - reflexivity. }
  split; [exact Hreach|].
  exact (proj2 (proj2 back_rank_pieces_are_kings) opening_board Hreach).
Defined.

(** ** The side-wide queries *)

Lemma existsb_is_capture (b : Board) r c :
  existsb is_capture (legal_moves_for b r c) = true <-> jumps_at b r c <> [].
Proof.
  rewrite existsb_exists, <- _recursive_captures_nil. split.
  - intros ([[tr tc] caps] & Hm & Hcap). apply is_capture_true in Hcap.
    apply legal_moves_for_In_capture in Hm; [|done]. by intros Hnil; rewrite Hnil in Hm.
  - intros Hne. rewrite legal_moves_for_captures.
    destruct (_recursive_captures b r c) as [|[[tr tc] caps] l] eqn:Hrc; [done|].
    exists (tr, tc, caps). split; [by left|]. apply is_capture_true.
    assert (In (tr, tc, caps) (_recursive_captures b r c)) as Hin
      by (rewrite Hrc; by left).
    by apply _recursive_captures_chain in Hin as (? & _).
Qed.

(** X16.  [any_capture_available] is true exactly when some piece of the
    colour has a jump open. *)
Theorem any_capture_available_spec (b : Board) (color : Color) :
  any_capture_available b color = true <->
  exists r c king, get b r c = Some (color, king) /\
                   jump_candidates b r c (color, king) <> [].
Proof.
  unfold any_capture_available. rewrite existsb_exists. split.
  - intros ([[r c] king] & Hin & Hcap). apply pieces_In in Hin.
    apply existsb_is_capture in Hcap. unfold jumps_at in Hcap.
    rewrite Hin in Hcap. by exists r, c, king.
  - intros (r & c & king & Hp & Hj). exists (r, c, king).
    split; [by apply pieces_In|]. apply existsb_is_capture.
    unfold jumps_at. by rewrite Hp.
Qed.

(** X17.  [game_over] reports that the game goes on exactly when each
    side has a piece with a legal move; in every other case it reports the
    end of the game with one of its four messages, each naming a winner. *)
Theorem game_over_continues (b : Board) :
  (game_over b = (false, EmptyString) <->
   (exists r c k, In (r, c, k) (pieces b PLAYER) /\ legal_moves_for b r c <> []) /\
   (exists r c k, In (r, c, k) (pieces b BOT) /\ legal_moves_for b r c <> [])) /\
  ((game_over b).1 = false -> game_over b = (false, EmptyString)) /\
  ((game_over b).1 = true -> winner_of (game_over b).2 <> None).
Proof.
  rewrite <- !any_legal_move_true.
  assert (forall color, any_legal_move b color = true -> pieces b color <> [])
    as Hpieces.
  { intros color Hany. apply any_legal_move_true in Hany as (r & c & k & Hin & _).
    by intros Hnil; rewrite Hnil in Hin. }
  unfold game_over. repeat split.
  - repeat case_bool_decide; try done.
    by destruct (any_legal_move b PLAYER).
  - repeat case_bool_decide; try done.
    by destruct (any_legal_move b PLAYER), (any_legal_move b BOT).
  - intros [Hp Hb]. rewrite Hp, Hb.
    rewrite !bool_decide_eq_false_2; [done| |].
    + rewrite length_zero_iff. by apply Hpieces.
    + rewrite length_zero_iff. by apply Hpieces.
  - repeat case_bool_decide; try done.
    by destruct (any_legal_move b PLAYER), (any_legal_move b BOT).
  - repeat case_bool_decide; try done.
    by destruct (any_legal_move b PLAYER), (any_legal_move b BOT).
Qed.

(** ** The bot *)

Lemma insert_desc_In {A} (key : A -> Z) (x y : A) (l : list A) :
  In x (insert_desc key y l) <-> x = y \/ In x l.
Proof.
  induction l as [|z l IH]; cbn [insert_desc In].
  { split; intros [?|?]; auto. }
  destruct (key y <? key z); cbn [In]; [rewrite IH|]; split; intros H;
    decompose [or] H; auto.
Qed.

Lemma sort_desc_In {A} (key : A -> Z) (x : A) (l : list A) :
  In x (sort_desc key l) <-> In x l.
Proof.
  induction l as [|y l IH]; [done|]. cbn [sort_desc foldr In].
  change (foldr (insert_desc key) [] l) with (sort_desc key l).
  rewrite insert_desc_In, IH. split; intros [?|?]; auto.
Qed.

Lemma insert_desc_sorted {A} (key : A -> Z) (x : A) (l : list A) :
  StronglySorted (fun a b => key b <= key a) l ->
  StronglySorted (fun a b => key b <= key a) (insert_desc key x l).
Proof.
  induction 1 as [|z l Hs IH Hall]; cbn [insert_desc]; [repeat constructor|].
  destruct (key x <? key z) eqn:Hlt.
  - apply Z.ltb_lt in Hlt. constructor; [done|].
    apply Forall_forall. intros y Hy.
    apply list_elem_of_In, insert_desc_In in Hy as [->|Hy]; [lia|].
    rewrite Forall_forall in Hall. by apply Hall, list_elem_of_In.
  - apply Z.ltb_ge in Hlt. constructor; [by constructor|].
    constructor; [done|]. eapply Forall_impl; [exact Hall|].
    intros y Hy. cbn beta in *. lia.
Qed.

Lemma sort_desc_sorted {A} (key : A -> Z) (l : list A) :
  StronglySorted (fun a b => key b <= key a) (sort_desc key l).
Proof.
  induction l as [|y l IH]; [constructor|]. by apply insert_desc_sorted.
Qed.

(** The first element of the sorted list has the largest key. *)
Lemma sort_desc_head {A} (key : A -> Z) (l : list A) first rest x :
  sort_desc key l = first :: rest -> In x l -> key x <= key first.
Proof.
  intros Hsort Hx. apply (sort_desc_In key) in Hx.
  pose proof (sort_desc_sorted key l) as Hs. rewrite Hsort in Hs, Hx.
  inversion Hs as [|? ? _ Hall]; subst. destruct Hx as [->|Hx]; [lia|].
  rewrite Forall_forall in Hall. by apply Hall, list_elem_of_In.
Qed.

Lemma choice_In {A} (l : list A) i x : choice l i = Some x -> In x l.
Proof. unfold choice. intros H. by eapply list_elem_of_In, list_elem_of_lookup_2. Qed.

Lemma choice_is_Some {A} (l : list A) i : l <> [] -> is_Some (choice l i).
Proof.
  intros Hne. unfold choice. apply lookup_lt_is_Some_2.
  apply Nat.mod_upper_bound. by destruct l.
Qed.

Lemma bot_candidates_In (b : Board) r c tr tc caps :
  In (r, c, tr, tc, caps) (bot_candidates b) <->
  (exists k, get b r c = Some (BOT, k)) /\
  In (tr, tc, caps) (legal_moves_for b r c).
Proof.
  unfold bot_candidates. rewrite in_flat_map. split.
  - intros ([[r' c'] k] & Hpiece & Hin).
    apply in_map_iff in Hin as ([[tr' tc'] caps'] & Heq & Hm).
    inversion Heq; subst. apply pieces_In in Hpiece. eauto.
  - intros [[k Hp] Hm]. exists (r, c, k). split; [by apply pieces_In|].
    apply in_map_iff. by exists (tr, tc, caps).
Qed.

Lemma bot_candidates_nil (b : Board) :
  bot_candidates b = [] <-> any_legal_move b BOT = false.
Proof.
  rewrite any_legal_move_false. split.
  - intros Hnil r c k Hin.
    destruct (legal_moves_for b r c) as [|[[tr tc] caps] l] eqn:Hl; [done|].
    assert (In (r, c, tr, tc, caps) (bot_candidates b)) as Hc.
    { apply bot_candidates_In. apply pieces_In in Hin. split; [eauto|].
      rewrite Hl. by left. }
    by rewrite Hnil in Hc.
  - intros Hall. destruct (bot_candidates b) as [|[[[[r c] tr] tc] caps] l] eqn:Hc;
      [done|].
    assert (In (r, c, tr, tc, caps) (bot_candidates b)) as Hin
      by (rewrite Hc; by left).
    apply bot_candidates_In in Hin as [[k Hp] Hm].
    apply pieces_In in Hp. by rewrite (Hall r c k Hp) in Hm.
Qed.

(** The two lists of [bot_move] split the candidates. *)
Lemma bot_lists_nil (b : Board) :
  List.filter call_is_capture (bot_candidates b) = [] ->
  List.filter (fun m => negb (call_is_capture m)) (bot_candidates b) = [] ->
  bot_candidates b = [].
Proof.
  induction (bot_candidates b) as [|m l IH]; [done|]. cbn [List.filter].
  by destruct (call_is_capture m).
Qed.

Lemma bot_move_In (b : Board) (d : Dice) (m : Call) :
  bot_move b d = Some m -> In m (bot_candidates b).
Proof.
  unfold bot_move.
  remember (List.filter call_is_capture (bot_candidates b)) as captures
    eqn:Hcap.
  remember (List.filter (fun m => negb (call_is_capture m)) (bot_candidates b))
    as moves eqn:Hmoves.
  destruct captures as [|c0 captures].
  - destruct moves as [|m0 moves]; [done|].
    assert (forall x, In x (m0 :: moves) -> In x (bot_candidates b)) as Hsub.
    { intros x Hx. rewrite Hmoves in Hx. by apply filter_In in Hx as [? _]. }
    destruct (lucky d); intros Hc; apply choice_In in Hc; [by apply Hsub|].
    apply list_elem_of_In, elem_of_take in Hc as (i & Hc & _).
    apply list_elem_of_lookup_2, list_elem_of_In, sort_desc_In in Hc.
    by apply Hsub.
  - destruct (sort_desc _ (c0 :: captures)) as [|first sorted] eqn:Hsort; [done|].
    intros Hc. apply choice_In in Hc.
    apply (proj1 (filter_In _ _ _)) in Hc. destruct Hc as [Hc _].
    assert (In m (sort_desc (fun m : Call => Z.of_nat (length m.2))
                            (c0 :: captures))) as Hin
      by (rewrite Hsort; exact Hc).
    apply sort_desc_In in Hin. rewrite Hcap in Hin.
    by apply filter_In in Hin as [? _].
Qed.

Lemma bot_move_None (b : Board) (d : Dice) :
  bot_move b d = None <-> bot_candidates b = [].
Proof.
  split.
  - unfold bot_move.
    remember (List.filter call_is_capture (bot_candidates b)) as captures
      eqn:Hcap.
    remember (List.filter (fun m => negb (call_is_capture m)) (bot_candidates b))
      as moves eqn:Hmoves.
    destruct captures as [|c0 captures].
    + destruct moves as [|m0 moves]; [intros _; by apply bot_lists_nil|].
      intros Hnone. exfalso.
      destruct (lucky d).
      * destruct (choice_is_Some (m0 :: moves) (pick d)) as [x Hx]; [done|].
        congruence.
      * destruct (sort_desc call_to_r (m0 :: moves)) as [|s0 sorted] eqn:Hsort.
        { assert (In m0 (sort_desc call_to_r (m0 :: moves))) as Hin
            by (apply sort_desc_In; by left).
          by rewrite Hsort in Hin. }
        destruct (choice_is_Some
                    (take (Nat.max 1 (length (s0 :: sorted) / 3)) (s0 :: sorted))
                    (pick d)) as [x Hx]; [|congruence].
        destruct (Nat.max 1 (length (s0 :: sorted) / 3)) eqn:Hmax; [lia|done].
    + intros Hnone. exfalso.
      destruct (sort_desc _ (c0 :: captures)) as [|first sorted] eqn:Hsort.
      { assert (In c0 (sort_desc (fun m : Call => Z.of_nat (length m.2))
                                 (c0 :: captures))) as Hin
          by (apply sort_desc_In; by left).
        by rewrite Hsort in Hin. }
      destruct (choice_is_Some
                  (List.filter
                     (fun m : Call => (length m.2 =? length first.2)%nat)
                     (first :: sorted)) (pick d)) as [x Hx]; [|congruence].
      cbn [List.filter]. by rewrite Nat.eqb_refl.
  - intros Hnil. unfold bot_move. by rewrite Hnil.
Qed.

(** X18.  Whatever the random generator draws, the move [bot_move]
    returns starts on a bot piece and is one of the moves
    [legal_moves_for] returns for that cell. *)
Theorem bot_move_is_legal (b : Board) (d : Dice) (r c tr tc : Z)
    (caps : list (Z * Z)) :
  bot_move b d = Some (r, c, tr, tc, caps) ->
  (exists k, get b r c = Some (BOT, k)) /\
  In (tr, tc, caps) (legal_moves_for b r c).
Proof. intros Hm. by apply bot_candidates_In, (bot_move_In b d). Qed.

Lemma bot_move_is_legal_witness :
  bot_move new_board {| lucky := false; pick := 1 |} = Some (2, 1, 3, 2, []) /\
  In (3, 2, []) (legal_moves_for new_board 2 1).
Proof.
  split; [reflexivity|].
  exact (proj2 (bot_move_is_legal new_board {| lucky := false; pick := 1 |}
                  2 1 3 2 [] eq_refl)).
Defined.

(** X19.  [bot_move] returns [None] exactly when no bot piece has a
    legal move; [game_over] then reports the end of the game, so in [main]
    the branch that skips the bot's turn is never taken. *)
Theorem bot_move_none (b : Board) (d : Dice) :
  (bot_move b d = None <->
   forall r c k, In (r, c, k) (pieces b BOT) -> legal_moves_for b r c = []) /\
  (bot_move b d = None -> (game_over b).1 = true).
Proof.
  rewrite bot_move_None, bot_candidates_nil, any_legal_move_false.
  split; [done|]. rewrite <- any_legal_move_false. intros Hnone.
  unfold game_over. rewrite Hnone.
  repeat case_bool_decide; try done. by destruct (any_legal_move b PLAYER).
Qed.

Lemma call_is_capture_true (m : Call) : call_is_capture m = true <-> m.2 <> [].
Proof. unfold call_is_capture. by destruct m.2. Qed.

(** X20.  When a bot piece can capture, [bot_move] returns a capture,
    whatever the random generator draws, and no move of any bot piece
    captures more pieces than the one returned. *)
Theorem bot_move_prefers_longest_capture (b : Board) (d : Dice) :
  any_capture_available b BOT = true ->
  exists m : Call,
    bot_move b d = Some m /\ m.2 <> [] /\
    forall r c k tr tc caps,
      In (r, c, k) (pieces b BOT) ->
      In (tr, tc, caps) (legal_moves_for b r c) ->
      (length caps <= length m.2)%nat.
Proof.
  intros Hany. unfold any_capture_available in Hany.
  apply existsb_exists in Hany as ([[r0 c0] k0] & Hpiece & Hcap).
  apply existsb_exists in Hcap as ([[tr0 tc0] caps0] & Hm0 & Hcap0).
  apply is_capture_true in Hcap0. cbn [snd] in Hcap0.
  assert (In (r0, c0, tr0, tc0, caps0)
             (List.filter call_is_capture (bot_candidates b))) as Hin0.
  { apply filter_In. split.
    - apply bot_candidates_In. apply pieces_In in Hpiece. eauto.
    - by apply call_is_capture_true. }
  unfold bot_move.
  remember (List.filter call_is_capture (bot_candidates b)) as captures
    eqn:Hcaps.
  destruct captures as [|c1 captures]; [done|].
  set (key := fun m : Call => Z.of_nat (length m.2)).
  destruct (sort_desc key (c1 :: captures)) as [|first rest] eqn:Hsort.
  { apply (sort_desc_In key) in Hin0. by rewrite Hsort in Hin0. }
  assert (In first (c1 :: captures)) as Hfirst.
  { apply (sort_desc_In key). rewrite Hsort. by left. }
  destruct (choice_is_Some
              (List.filter (fun m : Call => (length m.2 =? length first.2)%nat)
                           (first :: rest)) (pick d)) as [m Hm].
  { cbn [List.filter]. by rewrite Nat.eqb_refl. }
  exists m. split; [done|].
  apply choice_In in Hm. apply (proj1 (filter_In _ _ _)) in Hm.
  destruct Hm as [_ Hlen]. apply Nat.eqb_eq in Hlen.
  assert (first.2 <> []) as Hne.
  { rewrite Hcaps in Hfirst. apply filter_In in Hfirst as [_ Hc].
    by apply call_is_capture_true. }
  split.
  - intros Hnil. rewrite Hnil in Hlen. by destruct first.2.
  - intros r c k tr tc caps Hp Hlegal. rewrite Hlen.
    destruct caps as [|x caps]; [cbn; lia|].
    assert (In (r, c, tr, tc, x :: caps) (c1 :: captures)) as Hin.
    { rewrite Hcaps. apply filter_In. split; [|done].
      apply bot_candidates_In. apply pieces_In in Hp. eauto. }
    pose proof (sort_desc_head key _ _ _ _ Hsort Hin) as Hle.
    unfold key in Hle. cbn [snd] in Hle. lia.
Qed.

Lemma bot_move_prefers_longest_capture_witness :
  any_capture_available
    (board_of [(2, 1, (BOT, false)); (3, 2, (PLAYER, false));
               (5, 4, (PLAYER, false)); (2, 5, (BOT, false));
               (3, 6, (PLAYER, false))]) BOT = true /\
  exists m : Call,
    bot_move (board_of [(2, 1, (BOT, false)); (3, 2, (PLAYER, false));
                        (5, 4, (PLAYER, false)); (2, 5, (BOT, false));
                        (3, 6, (PLAYER, false))])
             {| lucky := true; pick := 1 |} = Some m /\ m.2 <> [].
Proof.
  split; [reflexivity|].
  destruct (bot_move_prefers_longest_capture
              (board_of [(2, 1, (BOT, false)); (3, 2, (PLAYER, false));
                         (5, 4, (PLAYER, false)); (2, 5, (BOT, false));
                         (3, 6, (PLAYER, false))])
              {| lucky := true; pick := 1 |} eq_refl) as (m & Hm & Hne & _).
  exists m. split; [exact Hm|exact Hne].
Defined.

Lemma insert_desc_count {A} (key : A -> Z) (f : A -> bool) x (l : list A) :
  length (List.filter f (insert_desc key x l)) = length (List.filter f (x :: l)).
Proof.
  induction l as [|y l IH]; [done|]. cbn [insert_desc].
  destruct (key x <? key y); [|done]. cbn [List.filter] in *.
  destruct (f y), (f x); cbn [length] in *; lia.
Qed.

Lemma sort_desc_count {A} (key : A -> Z) (f : A -> bool) (l : list A) :
  length (List.filter f (sort_desc key l)) = length (List.filter f l).
Proof.
  induction l as [|x l IH]; [done|]. cbn [sort_desc foldr].
  change (foldr (insert_desc key) [] l) with (sort_desc key l).
  rewrite insert_desc_count. cbn [List.filter].
  destruct (f x); cbn [length]; lia.
Qed.

Lemma filter_none {A} (f : A -> bool) (l : list A) :
  (forall x, In x l -> f x = false) -> List.filter f l = [].
Proof.
  induction l as [|y l IH]; intros H; [done|]. cbn [List.filter].
  rewrite (H y) by (by left). apply IH. intros x Hx. apply H. by right.
Qed.

Lemma filter_all {A} (f : A -> bool) (l : list A) :
  (forall x, In x l -> f x = true) -> List.filter f l = l.
Proof.
  induction l as [|y l IH]; intros H; [done|]. cbn [List.filter].
  rewrite (H y) by (by left). f_equal. apply IH. intros x Hx. apply H. by right.
Qed.

(** In a list sorted with the larger keys first, fewer than [j + 1]
    elements have a larger key than the element at index [j]. *)
Lemma sorted_desc_rank {A} (key : A -> Z) (s : list A) j m :
  StronglySorted (fun a b => key b <= key a) s ->
  s !! j = Some m ->
  (length (List.filter (fun x => (key m <? key x)%Z) s) <= j)%nat.
Proof.
  intros Hs. revert j. induction Hs as [|a s Hs IH Hall]; intros j Hj; [done|].
  destruct j as [|j]; cbn in Hj.
  - inversion Hj; subst. cbn [List.filter]. rewrite Z.ltb_irrefl.
    rewrite filter_none; [done|].
    intros x Hx. apply Z.ltb_ge. rewrite Forall_forall in Hall.
    by apply Hall, list_elem_of_In.
  - specialize (IH j Hj). cbn [List.filter].
    destruct (key m <? key a); cbn [length]; lia.
Qed.

(** X21.  When no bot piece can capture and the random generator does
    not ask for a random move, fewer than [max(1, n // 3)] of the [n]
    moves of the bot end on a row further down than the move
    returned. *)
Theorem bot_move_advances (b : Board) (d : Dice) (m : Call) :
  any_capture_available b BOT = false ->
  lucky d = false ->
  bot_move b d = Some m ->
  (length (List.filter (fun x => (call_to_r m <? call_to_r x)%Z)
                       (bot_candidates b))
   < Nat.max 1 (length (bot_candidates b) / 3))%nat.
Proof.
  intros Hany Hlucky.
  assert (forall x, In x (bot_candidates b) -> call_is_capture x = false)
    as Hquiet.
  { intros [[[[r c] tr] tc] caps] Hx. apply bot_candidates_In in Hx as [[k Hp] Hm].
    destruct (call_is_capture _) eqn:Hc; [|done].
    apply call_is_capture_true in Hc. cbn [snd] in Hc.
    rewrite <- Hany. symmetry. unfold any_capture_available.
    apply existsb_exists. exists (r, c, k). split; [by apply pieces_In|].
    apply existsb_exists. exists (tr, tc, caps). split; [done|].
    by apply is_capture_true. }
  assert (List.filter call_is_capture (bot_candidates b) = []) as Hcap.
  { apply filter_none. intros x Hx. by apply Hquiet. }
  assert (List.filter (fun x => negb (call_is_capture x)) (bot_candidates b)
          = bot_candidates b) as Hmoves.
  { apply filter_all. intros x Hx. by rewrite (Hquiet x Hx). }
  unfold bot_move. rewrite Hcap, Hmoves, Hlucky.
  destruct (bot_candidates b) as [|m0 moves] eqn:Hc; [done|].
  intros Hchoice. unfold choice in Hchoice.
  set (sorted := sort_desc call_to_r (m0 :: moves)) in *.
  assert (length sorted = length (m0 :: moves)) as Hlen.
  { pose proof (sort_desc_count call_to_r (fun _ => true) (m0 :: moves)) as H.
    by rewrite !(filter_all (fun _ => true)) in H by done. }
  apply lookup_take_Some in Hchoice as [Hj Hlt].
  rewrite <- (sort_desc_count call_to_r). fold sorted. rewrite <- Hlen.
  eapply Nat.le_lt_trans; [|exact Hlt].
  apply (sorted_desc_rank call_to_r sorted _ m); [|exact Hj].
  apply sort_desc_sorted.
Qed.

Lemma bot_move_advances_witness :
  any_capture_available new_board BOT = false /\
  bot_move new_board {| lucky := false; pick := 1 |} = Some (2, 1, 3, 2, []) /\
  (length (List.filter (fun x => (call_to_r (2, 1, 3, 2, []) <? call_to_r x)%Z)
                       (bot_candidates new_board)) < 2)%nat.
Proof.
  split; [reflexivity|]. split; [reflexivity|].
  exact (bot_move_advances new_board {| lucky := false; pick := 1 |}
           (2, 1, 3, 2, []) eq_refl eq_refl eq_refl).
Defined.

(** ** From the mouse to the board *)

Lemma square_size : SQUARE_SIZE = 100.
Proof. reflexivity. Qed.

(** X22.  [coords_from_mouse] maps a pixel to the cell whose square
    [draw_board] draws around it; a pixel of the window is mapped to a
    cell of the board, and the centre of a cell's square to that cell. *)
Theorem coords_from_mouse_spec (x y r c : Z) :
  (coords_from_mouse (x, y) = (r, c) <->
   c * SQUARE_SIZE <= x < c * SQUARE_SIZE + SQUARE_SIZE /\
   r * SQUARE_SIZE <= y < r * SQUARE_SIZE + SQUARE_SIZE) /\
  (0 <= x < WIDTH -> 0 <= y < HEIGHT ->
   in_bounds (coords_from_mouse (x, y)).1 (coords_from_mouse (x, y)).2 = true) /\
  coords_from_mouse (cell_centre r c) = (r, c).
Proof.
  unfold coords_from_mouse, cell_centre. rewrite square_size.
  unfold WIDTH, HEIGHT. cbn [fst snd]. change (100 / 2) with 50.
  split; [split|split].
  - intros Heq. inversion Heq; subst. Z.div_mod_to_equations. lia.
  - intros [Hx Hy]. f_equal; Z.div_mod_to_equations; lia.
  - intros Hx Hy. apply in_bounds_spec. unfold ROWS, COLS.
    Z.div_mod_to_equations. lia.
  - f_equal; Z.div_mod_to_equations; lia.
Qed.

(** ** The game loop *)

Lemma apply_move_is_Some (b : Board) r c p to_r to_c captured :
  get b r c = Some p -> is_Some (apply_move b r c to_r to_c captured).
Proof.
  intros Hp. unfold apply_move. rewrite Hp. destruct p as [color king].
  by destruct (promotes color to_r).
Qed.

Lemma game_invariant_new : game_invariant new_game.
Proof.
  unfold game_invariant, new_game. cbn [board selected valid_moves turn
    ai_thinking message].
  split; [apply reachable_new|]. repeat split; done.
Qed.

Lemma game_invariant_select (g : Game) r c keep :
  game_invariant g -> turn g = Some PLAYER ->
  game_invariant (select g r c keep).
Proof.
  intros Hinv Hturn. pose proof Hinv as (Hreach & Hsel & Hai & Hbot & Hon & Hoff).
  assert (game_invariant
            {| board := board g; selected := None; valid_moves := None;
               turn := turn g; ai_thinking := ai_thinking g;
               message := message g |}) as Hnone.
  { unfold game_invariant. cbn [board selected valid_moves turn ai_thinking
      message]. repeat split; done. }
  unfold select. destruct (get (board g) r c) as [[[] k]|] eqn:Hp.
  - unfold game_invariant. cbn [board selected valid_moves turn ai_thinking
      message]. split; [done|]. split.
    { intros sr sc Heq. inversion Heq; subst. split; [by exists k|done]. }
    split; [done|]. split; [intros Hb; congruence|]. by split.
  - by destruct keep.
  - by destruct keep.
Qed.

Lemma game_invariant_after_player_move (g : Game) (b' : Board) :
  game_invariant g -> turn g = Some PLAYER -> reachable b' ->
  game_invariant (after_player_move g b').
Proof.
  intros (Hreach & Hsel & Hai & Hbot & Hon & Hoff) Hturn Hreach'.
  rewrite Hturn in Hai. unfold after_player_move.
  destruct (game_over b') as [[] msg] eqn:Hover; unfold game_invariant;
    cbn [board selected valid_moves turn ai_thinking message];
    rewrite ?Hover; repeat split; done.
Qed.

Lemma game_invariant_after_bot_move (g : Game) (b' : Board) :
  game_invariant g -> turn g = Some BOT -> reachable b' ->
  game_invariant (after_bot_move g b').
Proof.
  intros (Hreach & Hsel & Hai & Hbot & Hon & Hoff) Hturn Hreach'.
  specialize (Hbot Hturn). unfold after_bot_move.
  destruct (game_over b') as [[] msg] eqn:Hover; unfold game_invariant;
    cbn [board selected valid_moves turn ai_thinking message];
    rewrite ?Hover, ?Hbot; repeat split; done.
Qed.

Lemma handle_click_invariant (g : Game) (pos : Z * Z) :
  game_invariant g ->
  exists g', handle_click g pos = Some g' /\ game_invariant g'.
Proof.
  intros Hinv. unfold handle_click.
  destruct (bool_decide (turn g = Some PLAYER) && negb (ai_thinking g))
    eqn:Hguard; [|by exists g].
  apply andb_true_iff in Hguard as [Hturn _].
  apply bool_decide_eq_true in Hturn.
  destruct (coords_from_mouse pos) as [r c].
  destruct (selected g) as [[sr sc]|] eqn:Hs;
    [|eexists; split; [done|]; by apply game_invariant_select].
  pose proof Hinv as (Hreach & Hsel & _).
  destruct (Hsel sr sc Hs) as [[k Hp] Hvalid]. rewrite Hvalid.
  assert (forall found,
            List.find (fun mv : Move => (mv.1.1 =? r) && (mv.1.2 =? c))
                      (legal_moves_for (board g) sr sc) = found ->
            exists g',
              match found with
              | Some mv =>
                  match apply_move (board g) sr sc r c mv.2 with
                  | Some b' => Some (after_player_move g b')
                  | None => None
                  end
              | None => Some (select g r c false)
              end = Some g' /\ game_invariant g') as Hfound.
  { intros [[[tr tc] caps]|] Hfind.
    - apply find_some in Hfind as [Hm Hdest]. cbn [fst snd] in Hdest.
      apply andb_true_iff in Hdest as [Hr Hc].
      apply Z.eqb_eq in Hr, Hc. subst tr tc. cbn [snd].
      destruct (apply_move_is_Some (board g) sr sc _ r c caps Hp) as [b' Hb'].
      rewrite Hb'. eexists. split; [done|].
      apply game_invariant_after_player_move; [done..|].
      by eapply reachable_move.
    - eexists. split; [done|]. by apply game_invariant_select. }
  destruct (legal_moves_for (board g) sr sc) as [|mv rest] eqn:Hl.
  - eexists. split; [done|]. by apply game_invariant_select.
  - by apply Hfound.
Qed.

Lemma bot_turn_invariant (g : Game) (d : Dice) :
  game_invariant g ->
  exists g', bot_turn g d = Some g' /\ game_invariant g'.
Proof.
  intros Hinv. unfold bot_turn.
  destruct (bool_decide (turn g = Some BOT) && ai_thinking g) eqn:Hguard;
    [|by exists g].
  apply andb_true_iff in Hguard as [Hturn _].
  apply bool_decide_eq_true in Hturn.
  pose proof Hinv as (Hreach & _ & _ & _ & Hon & _).
  destruct (bot_move (board g) d) as [[[[[r c] tr] tc] caps]|] eqn:Hmove.
  - apply bot_move_In, bot_candidates_In in Hmove as [[k Hp] Hm].
    destruct (apply_move_is_Some (board g) r c _ tr tc caps Hp) as [b' Hb'].
    rewrite Hb'. eexists. split; [done|].
    apply game_invariant_after_bot_move; [done..|]. by eapply reachable_move.
  - exfalso. apply bot_move_None, bot_candidates_nil in Hmove.
    assert ((game_over (board g)).1 = false) as Hgo
      by (apply Hon; by rewrite Hturn).
    unfold game_over in Hgo. rewrite Hmove in Hgo.
    repeat case_bool_decide; try done.
    by destruct (any_legal_move (board g) PLAYER).
Qed.

Lemma play_invariant (inputs : list Input) (g : Game) :
  game_invariant g ->
  exists g', play g inputs = Some g' /\ game_invariant g'.
Proof.
  revert g. induction inputs as [|i inputs IH]; intros g Hinv; [by exists g|].
  cbn [play].
  assert (exists g1, step g i = Some g1 /\ game_invariant g1) as (g1 & -> & Hinv1).
  { destruct i; [by apply handle_click_invariant|by apply bot_turn_invariant]. }
  by apply IH.
Qed.

(** X23.  Whatever the clicks and whatever the random generator draws,
    the loop of [main] never makes [apply_move] fail and only applies
    moves that [legal_moves_for] returns for their source cell on the
    current board: every board of the game is reached from the initial
    layout by legal moves.  A selected cell holds a player piece, and the
    highlighted moves are the legal moves of that cell on the current
    board. *)
Theorem main_loop_plays_legal_moves (inputs : list Input) :
  exists g : Game,
    play new_game inputs = Some g /\
    reachable (board g) /\
    (forall sr sc, selected g = Some (sr, sc) ->
       (exists k, get (board g) sr sc = Some (PLAYER, k)) /\
       valid_moves g = Some (legal_moves_for (board g) sr sc)).
Proof.
  destruct (play_invariant inputs new_game game_invariant_new)
    as (g & Hplay & Hreach & Hsel & _).
  by exists g.
Qed.

(** X24.  In every state the loop reaches: the turn is nobody's exactly
    when [game_over] reports the end on the current board, and the message
    shown is then the one [game_over] returns; and when it is the bot's
    turn, [bot_move] returns a move, so the branch of [main] that skips
    the bot's turn is never taken. *)
Theorem main_loop_turns (inputs : list Input) (g : Game) :
  play new_game inputs = Some g ->
  (turn g = None <-> (game_over (board g)).1 = true) /\
  (turn g = None -> game_over (board g) = (true, message g)) /\
  (turn g = Some BOT -> forall d, bot_move (board g) d <> None).
Proof.
  intros Hplay.
  destruct (play_invariant inputs new_game game_invariant_new)
    as (g' & Hplay' & _ & _ & _ & _ & Hon & Hoff).
  assert (g' = g) as -> by congruence. split; [|split; [done|]].
  - split.
    + intros Hnone. by rewrite (Hoff Hnone).
    + intros Hover. destruct (turn g) eqn:Hturn; [|done].
      rewrite Hon in Hover; done.
  - intros Hturn d Hnone. apply bot_move_None, bot_candidates_nil in Hnone.
    assert ((game_over (board g)).1 = false) as Hgo
      by (apply Hon; by rewrite Hturn).
    unfold game_over in Hgo. rewrite Hnone in Hgo.
    repeat case_bool_decide; try done.
    by destruct (any_legal_move (board g) PLAYER).
Qed.

Lemma main_loop_turns_witness :
  play new_game [Click (50, 550); Click (150, 450)]
  = Some (after_player_move new_game opening_board) /\
  turn (after_player_move new_game opening_board) = Some BOT /\
  (forall d, bot_move opening_board d <> None).
Proof.
  split; [reflexivity|]. split; [reflexivity|].
  exact (proj2 (proj2 (main_loop_turns [Click (50, 550); Click (150, 450)]
                         (after_player_move new_game opening_board) eq_refl))
           eq_refl).
Defined.

Lemma step_game_over (g : Game) (i : Input) : turn g = None -> step g i = Some g.
Proof.
  intros Hturn. destruct i; cbn [step]; unfold handle_click, bot_turn;
    by rewrite Hturn.
Qed.

(** X25.  Once the game is over the loop changes nothing any more:
    clicks and bot turns leave every variable as it is. *)
Theorem main_loop_game_over_is_final (g : Game) (inputs : list Input) :
  turn g = None -> play g inputs = Some g.
Proof.
  intros Hturn. induction inputs as [|i inputs IH]; [done|].
  cbn [play]. by rewrite step_game_over.
Qed.

Lemma main_loop_game_over_is_final_witness :
  play {| board := lone_man_board; selected := None; valid_moves := None;
          turn := None; ai_thinking := false; message := "Player wins" |}
       [Click (150, 50); Bot {| lucky := true; pick := 3 |}]
  = Some {| board := lone_man_board; selected := None; valid_moves := None;
            turn := None; ai_thinking := false; message := "Player wins" |}.
Proof.
  exact (main_loop_game_over_is_final
           {| board := lone_man_board; selected := None; valid_moves := None;
              turn := None; ai_thinking := false; message := "Player wins" |}
           [Click (150, 50); Bot {| lucky := true; pick := 3 |}] eq_refl).
Defined.
